(** * Reshaper: API resource transformations (src/src/Resource.js)

    A shallow embedding of the [Resource] class and of the part of the
    JavaScript run time it relies on, followed by the properties of the
    helpers.

    The embedding keeps the distinction the library is built around:
    [undefined] (the "absent" marker) and [null] are different values, and a
    record may hold a key whose value is [undefined].  Objects live in a
    store and are handled by reference, so that sharing and assignment are
    visible; every helper is a state-passing computation that may throw. *)

From Stdlib Require Import Ascii QArith Qround.
From stdpp Require Import base strings pretty numbers list.
Close Scope Q_scope.

Set Default Proof Using "Type".

(** ** JavaScript values *)

Module JS.

(** Numbers.  A finite number is an exact rational: rounding and the sign
    of zero are not represented.  [NaN] and the two infinities are. *)
Inductive number :=
  | NaN
  | Infinity (negative : bool)
  | Finite (q : Q).

Abbreviation loc := nat (only parsing).
Abbreviation fid := nat (only parsing).

(** Objects (records and arrays) are references into the store; function
    values are names whose behaviour the host supplies. *)
Inductive value :=
  | VUndefined
  | VNull
  | VBoolean (b : bool)
  | VNumber (n : number)
  | VString (s : string)
  | VObject (l : loc)
  | VFunction (f : fid).

(** Own enumerable string-keyed properties of a plain object, in property
    order, or the elements of an array.  Inherited members (those of
    Object.prototype, Array.prototype, ...) are not part of the model. *)
Inductive cell :=
  | OrdinaryObject (props : list (string * value))
  | ArrayObject (elems : list value).

Abbreviation heap := (list cell) (only parsing).

Inductive exn :=
  | Error (message : string)
  | TypeError.

Inductive outcome (A : Type) :=
  | Ret (a : A)
  | Throw (e : exn).
Global Arguments Ret {A} a.
Global Arguments Throw {A} e.

(** Computations: read and extend the store, return or throw. *)
Definition M (A : Type) : Type := heap → outcome A * heap.

Definition ret {A} (a : A) : M A := λ h, (Ret a, h).
Definition throw {A} (e : exn) : M A := λ h, (Throw e, h).
Definition bind {A B} (m : M A) (k : A → M B) : M B :=
  λ h, match m h with
       | (Ret a, h') => k a h'
       | (Throw e, h') => (Throw e, h')
       end.

Declare Scope js_scope.
Delimit Scope js_scope with js.
Notation "x <- m ;; k" := (bind m (λ x, k))
  (at level 100, m at next level, right associativity) : js_scope.
Notation "m ;;; k" := (bind m (λ _, k))
  (at level 100, right associativity) : js_scope.
Local Open Scope js_scope.

(** [new] object: the fresh reference is the next free index. *)
Definition alloc (c : cell) : M loc := λ h, (Ret (length h), h ++ [c]).
Definition new_object (props : list (string * value)) : M value :=
  l <- alloc (OrdinaryObject props) ;; ret (VObject l).
Definition new_array (elems : list value) : M value :=
  l <- alloc (ArrayObject elems) ;; ret (VObject l).
Definition read (l : loc) : M (option cell) := λ h, (Ret (h !! l), h).

(** *** Numbers *)

Definition num (z : Z) : value := VNumber (Finite (inject_Z z)).
Definition is_zero (q : Q) : bool := (Qnum q =? 0)%Z.
Definition is_negative (q : Q) : bool := (Qnum q <? 0)%Z.

(** [a / b] on numbers. *)
Definition number_div (a b : number) : number :=
  match a, b with
  | NaN, _ | _, NaN => NaN
  | Infinity _, Infinity _ => NaN
  | Infinity s, Finite q => Infinity (xorb s (is_negative q))
  | Finite _, Infinity _ => Finite 0%Q
  | Finite p, Finite q =>
      if is_zero q then
        if is_zero p then NaN else Infinity (is_negative p)
      else Finite (Qred (p / q))
  end.

Definition Math_ceil (n : number) : number :=
  match n with
  | Finite q => Finite (inject_Z (Qceiling q))
  | _ => n
  end.

(** *** Truthiness, typeof, nullish *)

Definition truthy (v : value) : bool :=
  match v with
  | VUndefined | VNull => false
  | VBoolean b => b
  | VNumber NaN => false
  | VNumber (Infinity _) => true
  | VNumber (Finite q) => negb (is_zero q)
  | VString s => negb (String.eqb s "")
  | VObject _ | VFunction _ => true
  end.

Definition typeof (v : value) : string :=
  match v with
  | VUndefined => "undefined"
  | VNull | VObject _ => "object"
  | VBoolean _ => "boolean"
  | VNumber _ => "number"
  | VString _ => "string"
  | VFunction _ => "function"
  end.

Definition is_undefined (v : value) : bool :=
  match v with VUndefined => true | _ => false end.
Definition is_null (v : value) : bool :=
  match v with VNull => true | _ => false end.
Definition nullish (v : value) : bool := is_undefined v || is_null v.

(** [a || b] and [a ?? b] on already evaluated operands. *)
Definition or_else (a b : value) : value := if truthy a then a else b.

(** *** Property keys *)

Definition digit (a : ascii) : option N :=
  let n := N_of_ascii a in
  if ((48 <=? n) && (n <=? 57))%N then Some (n - 48)%N else None.

Fixpoint digits (acc : N) (s : string) : option N :=
  match s with
  | EmptyString => Some acc
  | String a r =>
      match digit a with
      | Some d => digits (10 * acc + d)%N r
      | None => None
      end
  end.

(** An array index is the canonical decimal form of an integer below
    2^32 - 1. *)
Definition key_index (k : string) : option N :=
  match k with
  | EmptyString => None
  | String "0"%char EmptyString => Some 0%N
  | String "0"%char _ => None
  | _ =>
      match digits 0 k with
      | Some n => if (n <? 4294967295)%N then Some n else None
      | None => None
      end
  end.

Definition index_key (i : nat) : string := pretty (N.of_nat i).

(** *** Own properties of a plain object *)

Abbreviation props := (list (string * value)) (only parsing).

Fixpoint own (ps : props) (k : string) : option value :=
  match ps with
  | [] => None
  | (k', v) :: r => if String.eqb k' k then Some v else own r k
  end.

Fixpoint update (ps : props) (k : string) (v : value) : props :=
  match ps with
  | [] => []
  | (k', v') :: r =>
      if String.eqb k' k then (k', v) :: r else (k', v') :: update r k v
  end.

(** A new index key goes before the first key that is not a smaller
    index; a new name goes last. *)
Fixpoint insert_index (i : N) (k : string) (v : value) (ps : props) : props :=
  match ps with
  | [] => [(k, v)]
  | (k', v') :: r =>
      match key_index k' with
      | Some j =>
          if (j <? i)%N then (k', v') :: insert_index i k v r
          else (k, v) :: (k', v') :: r
      | None => (k, v) :: (k', v') :: r
      end
  end.

(** [o[k] = v] on the property list of a plain object. *)
Definition define_property (ps : props) (k : string) (v : value) : props :=
  match own ps k with
  | Some _ => update ps k v
  | None =>
      match key_index k with
      | Some i => insert_index i k v ps
      | None => ps ++ [(k, v)]
      end
  end.

Definition from_entries (es : list (string * value)) : props :=
  foldl (λ ps e, define_property ps e.1 e.2) [] es.

Definition string_entries (s : string) : list (string * value) :=
  imap (λ i a, (index_key i, VString (String a EmptyString)))
       (String.list_ascii_of_string s).

Definition array_entries (elems : list value) : list (string * value) :=
  imap (λ i x, (index_key i, x)) elems.

(** The own enumerable entries [{...v}], [Object.assign] and
    [Object.entries] go through. *)
Definition own_entries (h : heap) (v : value) : list (string * value) :=
  match v with
  | VObject l =>
      match h !! l with
      | Some (OrdinaryObject ps) => ps
      | Some (ArrayObject elems) => array_entries elems
      | None => []
      end
  | VString s => string_entries s
  | _ => []
  end.

(** [v[k]]: own properties, the elements and [length] of arrays and
    strings; reading a property of [null] or [undefined] throws. *)
Definition get_own (h : heap) (v : value) (k : string) : outcome value :=
  match v with
  | VUndefined | VNull => Throw TypeError
  | VObject l =>
      match h !! l with
      | Some (OrdinaryObject ps) => Ret (default VUndefined (own ps k))
      | Some (ArrayObject elems) =>
          if String.eqb k "length" then Ret (num (Z.of_nat (length elems)))
          else Ret (default VUndefined
                      (i ← key_index k; elems !! N.to_nat i))
      | None => Ret VUndefined
      end
  | VString s =>
      if String.eqb k "length" then Ret (num (Z.of_nat (String.length s)))
      else Ret (default VUndefined
                  (i ← key_index k; (string_entries s).*2 !! N.to_nat i))
  | VBoolean _ | VNumber _ | VFunction _ => Ret VUndefined
  end.

Definition get (v : value) (k : string) : M value :=
  λ h, (get_own h v k, h).

(** [{...v}] *)
Definition spread (v : value) : M value :=
  λ h, new_object (from_entries (own_entries h v)) h.

(** [Object.entries(v)], [Object.keys(v)] *)
Definition Object_entries (v : value) : M (list (string * value)) :=
  λ h, if nullish v then (Throw TypeError, h) else (Ret (own_entries h v), h).
Definition Object_keys (v : value) : M (list string) :=
  es <- Object_entries v ;; ret (es.*1).

(** [Object.fromEntries(es)] *)
Definition Object_fromEntries (es : list (string * value)) : M value :=
  new_object (from_entries es).

Definition Array_isArray (v : value) : M bool :=
  λ h, (Ret match v with
            | VObject l =>
                match h !! l with Some (ArrayObject _) => true | _ => false end
            | _ => false
            end, h).

(** [o[k] = v] where [o] is a plain object (the only assignments in the
    source are to records it created itself). *)
Definition assign (l : loc) (k : string) (v : value) : M unit :=
  λ h, match h !! l with
       | Some (OrdinaryObject ps) =>
           (Ret tt, <[l := OrdinaryObject (define_property ps k v)]> h)
       | _ => (Ret tt, h)
       end.

Fixpoint assign_all (l : loc) (es : list (string * value)) : M unit :=
  match es with
  | [] => ret tt
  | (k, v) :: r => assign l k v ;;; assign_all l r
  end.

(** [Object.assign(target, ...sources)]: the entries of each source are
    read when its turn comes. *)
Fixpoint Object_assign (target : loc) (sources : list value) : M value :=
  match sources with
  | [] => ret (VObject target)
  | s :: r =>
      (λ h, assign_all target (own_entries h s) h) ;;;
      Object_assign target r
  end.

(** [arr.map(f)]: the length is fixed at the start, each element is read
    when its turn comes; an index that no longer exists is skipped and
    leaves a hole, shown here as [undefined]. *)
Fixpoint map_from (f : value → M value) (l : loc) (k n : nat)
    (acc : list value) : M (list value) :=
  match n with
  | 0 => ret acc
  | S n' =>
      c <- read l ;;
      match c with
      | Some (ArrayObject elems) =>
          match elems !! k with
          | Some x => y <- f x ;; map_from f l (S k) n' (acc ++ [y])
          | None => map_from f l (S k) n' (acc ++ [VUndefined])
          end
      | _ => map_from f l (S k) n' (acc ++ [VUndefined])
      end
  end.

Definition Array_map (f : value → M value) (arr : value) : M value :=
  match arr with
  | VObject l =>
      c <- read l ;;
      match c with
      | Some (ArrayObject elems) =>
          ys <- map_from f l 0 (length elems) [] ;; new_array ys
      | _ => throw TypeError
      end
  | _ => throw TypeError
  end.

(** What the run time and the caller supply: the behaviour of function
    values, and the conversions of strings and objects to numbers and of
    non-string values to property keys, which the library never inspects. *)
Class Host := {
  call : fid → list value → M value;
  coerce_number : heap → value → number;
  coerce_string : heap → value → string;
}.

Section Coercions.
Context `{Host}.

(** [f(args)] *)
Definition apply (f : value) (args : list value) : M value :=
  match f with
  | VFunction id => call id args
  | _ => throw TypeError
  end.

Definition ToNumber (h : heap) (v : value) : number :=
  match v with
  | VUndefined => NaN
  | VNull => Finite 0%Q
  | VBoolean b => Finite (if b then 1%Q else 0%Q)
  | VNumber n => n
  | VString _ | VObject _ => coerce_number h v
  | VFunction _ => NaN
  end.

Definition ToPropertyKey (h : heap) (v : value) : string :=
  match v with
  | VString s => s
  | VUndefined => "undefined"
  | VNull => "null"
  | VBoolean b => if b then "true" else "false"
  | VNumber _ | VObject _ | VFunction _ => coerce_string h v
  end.
End Coercions.

End JS.

(** ** The toolkit (src/src/Resource.js) *)

Module Resource.
Import JS.
Local Open Scope js_scope.

(** A transformer: what a subclass of [Resource] and what [define] expose. *)
Record Transformer := {
t_transform : value → value → M value;
t_collection : value → value → M value;
t_make : value → value → M value;
t_paginate : value → value → M value;
t_wrap : value → value → M value;
}.

Section Helpers.
Context `{Host}.

(** A parameter declared [p = {}] that was left [undefined]. *)
Definition default_object (v : value) : M value :=
  if is_undefined v then new_object [] else ret v.

(** A parameter declared [p = null]. *)
Definition default_null (v : value) : value :=
  if is_undefined v then VNull else v.

(** [o[k]] with a computed key. *)
Definition get_value (o k : value) : M value :=
  λ h, get o (ToPropertyKey h k) h.

(** [o[k] = v] in strict code. *)
Definition put (o k v : value) : M unit :=
  match o with
  | VObject l => λ h, assign l (ToPropertyKey h k) v h
  | _ => throw TypeError
  end.

(** [a || b], [a ?? b] with the right operand evaluated on demand. *)
Definition js_or (a b : M value) : M value :=
  x <- a ;; if truthy x then ret x else b.
Definition js_coalesce (a b : M value) : M value :=
  x <- a ;; if nullish x then b else ret x.

Definition not_implemented (name : string) : string :=
  name +:+ ".transform() must be implemented. " +:+
  "Define a static transform method in your resource class.".

(** [static transform(resource, options = {})] of the base class;
    [this_name] is [this.name]. *)
Definition transform (this_name : string) (resource options : value)
    : M value :=
  options <- default_object options ;;
  throw (Error (not_implemented this_name)).

(** [static collection(resources, options = {})] *)
Definition collection (this_transform : value → value → M value)
    (resources options : value) : M value :=
  options <- default_object options ;;
  is_array <- Array_isArray resources ;;
  if negb (truthy resources) || negb is_array then new_array []
  else Array_map (λ resource, this_transform resource options) resources.

(** [static make(resource, options = {})] *)
Definition make (this_transform : value → value → M value)
    (resource options : value) : M value :=
  options <- default_object options ;;
  if negb (truthy resource) then ret VNull
  else this_transform resource options.

(** [static when(condition, value)] *)
Definition when (condition value : JS.value) : M JS.value :=
  if negb (truthy condition) then ret VUndefined
  else if String.eqb (typeof value) "function" then apply value []
  else ret value.

(** [static whenOrElse(condition, value, defaultValue)] *)
Definition whenOrElse (condition value defaultValue : JS.value) : M JS.value :=
  let result := if truthy condition then value else defaultValue in
  if String.eqb (typeof result) "function" then apply result []
  else ret result.

(** [static whenLoaded(resource, relation, transformer = null)] *)
Definition whenLoaded (resource relation transformer : value) : M value :=
  let transformer := default_null transformer in
  v <- get_value resource relation ;;
  if is_undefined v then ret VUndefined
  else if truthy transformer then
    v <- get_value resource relation ;; apply transformer [v]
  else get_value resource relation.

(** [static whenNotNull(value, transformer = null)] *)
Definition whenNotNull (value transformer : JS.value) : M JS.value :=
  let transformer := default_null transformer in
  if is_null value || is_undefined value then ret VUndefined
  else if truthy transformer then apply transformer [value]
  else ret value.

(** [static clean(obj)] *)
Definition clean (obj : value) : M value :=
  if negb (truthy obj) || negb (String.eqb (typeof obj) "object")
  then ret obj
  else
    entries <- Object_entries obj ;;
    Object_fromEntries
      (List.filter (λ e, negb (is_undefined e.2)) entries).

(** [static merge(...objects)]; [this_clean] is [this.clean]. *)
Definition merge (this_clean : value → M value) (objects : list value)
    : M value :=
  let filtered :=
    List.filter (λ obj, negb (is_undefined obj) && negb (is_null obj))
                objects in
  target <- alloc (OrdinaryObject []) ;;
  merged <- Object_assign target filtered ;;
  this_clean merged.

(** [static wrap(data, meta = {})] *)
Definition wrap (data meta : value) : M value :=
  meta <- default_object meta ;;
  response <- alloc (OrdinaryObject [("data", data)]) ;;
  (if truthy meta then
     keys <- Object_keys meta ;;
     if 0 <? length keys then assign response "meta" meta else ret tt
   else ret tt) ;;;
  ret (VObject response).

(** [const { page = 1, perPage = 15, ...transformOptions } = options] *)
Definition rest_properties (excluded : list string) (options : value)
    : M value :=
  λ h, new_object
         (from_entries
            (List.filter (λ e, negb (existsb (String.eqb e.1) excluded))
                         (own_entries h options))) h.

Definition with_default (d v : value) : value :=
  if is_undefined v then d else v.

(** [Math.ceil(total / perPage) || 1] *)
Definition last_page (total perPage : value) : M value :=
  λ h, ret (or_else
              (VNumber (Math_ceil (number_div (ToNumber h total)
                                              (ToNumber h perPage))))
              (num 1)) h.

(** [static paginate(result, options = {})]; [this_collection] is
    [this.collection]. *)
Definition paginate (this_collection : value → value → M value)
    (result options : value) : M value :=
  options <- default_object options ;;
  (if nullish options then throw TypeError else ret tt) ;;;
  page <- get options "page" ;;
  let page := with_default (num 1) page in
  perPage <- get options "perPage" ;;
  let perPage := with_default (num 15) perPage in
  transformOptions <- rest_properties ["page"; "perPage"] options ;;
  results <- js_or (js_or (js_or (get result "results")
                                 (get result "data"))
                          (get result "rows"))
                   (ret result) ;;
  total <- js_coalesce (js_coalesce (get result "total")
                                    (get result "count"))
                       (get results "length") ;;
  is_array <- Array_isArray results ;;
  sequence <- (if is_array then ret results else new_array []) ;;
  data <- this_collection sequence transformOptions ;;
  last <- last_page total perPage ;;
  meta <- new_object [("current_page", page); ("per_page", perPage);
                      ("total", total); ("last_page", last)] ;;
  new_object [("data", data); ("meta", meta)].

(** [static define(transformFn)] *)
Definition define (transformFn : value → value → M value) : Transformer :=
  let resource_collection := λ data options,
    options <- default_object options ;;
    is_array <- Array_isArray data ;;
    if negb (truthy data) || negb is_array then new_array []
    else Array_map (λ item, transformFn item options) data in
  {| t_transform := λ data options,
       options <- default_object options ;;
       if negb (truthy data) then ret VNull
       else transformFn data options;
     t_collection := resource_collection;
     t_make := λ data options,
       options <- default_object options ;;
       if negb (truthy data) then ret VNull
       else transformFn data options;
     t_paginate := λ result options,
       options <- default_object options ;;
       paginate resource_collection result options;
     t_wrap := wrap |}.

(** [class name extends Resource { static transform(...) {...} }]: the
    other members are inherited and see the override through [this]. *)
Definition subclass (name : string)
    (override : option (value → value → M value)) : Transformer :=
  let this_transform := default (transform name) override in
  {| t_transform := this_transform;
     t_collection := collection this_transform;
     t_make := make this_transform;
     t_paginate := paginate (collection this_transform);
     t_wrap := wrap |}.

(** [arr.reduce(f, init)], elements read as in [Array_map]. *)
Fixpoint reduce_from (f : value → value → M value) (l : loc) (k n : nat)
    (acc : value) : M value :=
  match n with
  | O => ret acc
  | S n' =>
      c <- read l ;;
      match c with
      | Some (ArrayObject elems) =>
          match elems !! k with
          | Some x => acc' <- f acc x ;; reduce_from f l (S k) n' acc'
          | None => reduce_from f l (S k) n' acc
          end
      | _ => reduce_from f l (S k) n' acc
      end
  end.

Definition Array_reduce (f : value → value → M value) (arr init : value)
    : M value :=
  match arr with
  | VObject l =>
      c <- read l ;;
      match c with
      | Some (ArrayObject elems) => reduce_from f l 0 (length elems) init
      | _ => throw TypeError
      end
  | _ => throw TypeError
  end.

(** [static pick(obj, fields)] *)
Definition pick (obj fields : value) : M value :=
  if negb (truthy obj) || negb (truthy fields) then new_object []
  else
    init <- new_object [] ;;
    Array_reduce
      (λ acc field,
         v <- get_value obj field ;;
         (if negb (is_undefined v) then
            v <- get_value obj field ;; put acc field v
          else ret tt) ;;;
         ret acc)
      fields init.

(** The elements [new Set(iterable)] is built from. *)
Definition iterate (v : value) : M (list value) :=
  λ h, match v with
       | VObject l =>
           match h !! l with
           | Some (ArrayObject elems) => (Ret elems, h)
           | _ => (Throw TypeError, h)
           end
       | VString s => (Ret (string_entries s).*2, h)
       | _ => (Throw TypeError, h)
       end.

(** [fieldSet.has(key)] for a string [key]. *)
Definition has_key (fieldSet : list value) (key : string) : bool :=
  existsb (λ x, match x with VString s => String.eqb s key | _ => false end)
          fieldSet.

(** [static omit(obj, fields)] *)
Definition omit (obj fields : value) : M value :=
  if negb (truthy obj) || negb (truthy fields) then spread obj
  else
    fieldSet <- iterate fields ;;
    entries <- Object_entries obj ;;
    Object_fromEntries
      (List.filter (λ e, negb (has_key fieldSet e.1)) entries).

(** [([key, value]) => [keyMap[key] || key, value]] over the entries;
    [Object.fromEntries] then turns each first component into a key. *)
Fixpoint rename_entries (keyMap : value) (es : list (string * value))
    : M (list (string * value)) :=
  match es with
  | [] => ret []
  | (key, value) :: r =>
      mapped <- get keyMap key ;;
      new_key <- (λ h, ret (ToPropertyKey h (or_else mapped (VString key))) h) ;;
      r' <- rename_entries keyMap r ;;
      ret ((new_key, value) :: r')
  end.

(** [static rename(obj, keyMap)] *)
Definition rename (obj keyMap : value) : M value :=
  if negb (truthy obj) || negb (truthy keyMap) then spread obj
  else
    entries <- Object_entries obj ;;
    renamed <- rename_entries keyMap entries ;;
    Object_fromEntries renamed.

End Helpers.
End Resource.

(** ** Specification vocabulary *)

Module Spec.
Import JS Resource.
Local Open Scope js_scope.

(** A computation that only adds objects: the store it starts from is an
  initial segment of the store it ends in. *)
Definition extends_only {A} (m : M A) : Prop :=
∀ h r h', m h = (r, h') → h `prefix_of` h'.

(** [triple h0 m Q]: started in any store that extends [h0], [m] leaves
  the objects of [h0] as they were, and what it returns satisfies [Q]. *)
Definition triple (h0 : heap) {A} (m : M A) (Q : A → Prop) : Prop :=
∀ h r h', h0 `prefix_of` h → m h = (r, h') →
  h0 `prefix_of` h' ∧ ∀ a, r = Ret a → Q a.

Definition fresh (h0 : heap) (v : value) : Prop :=
∃ l, v = VObject l ∧ length h0 ≤ l.

(** Applying [f] to every element, first to last. *)
Fixpoint map_each (f : value → M value) (xs : list value) : M (list value) :=
  match xs with
  | [] => ret []
  | x :: r => y <- f x ;; ys <- map_each f r ;; ret (y :: ys)
  end.

(** [m] can return [a] somewhere between the stores [h] and [h']. *)
Definition returns_between (h h' : heap) {A} (m : M A) (a : A) : Prop :=
  ∃ hi hi', h `prefix_of` hi ∧ m hi = (Ret a, hi') ∧ hi' `prefix_of` h'.

(** A function that returns on every input. *)
Definition never_throws (f : value → value → M value) : Prop :=
  ∀ x o h, ∃ y h', f x o h = (Ret y, h').

Definition is_array (h : heap) (v : value) : bool :=
  match v with
  | VObject l => match h !! l with Some (ArrayObject _) => true | _ => false end
  | _ => false
  end.

(** Property order of a plain object: array indices in ascending order,
    then the other keys.  [precedes a b]: key [a] may come before [b]. *)
Definition precedes (a b : string) : Prop :=
  match key_index a, key_index b with
  | Some i, Some j => (i < j)%N
  | Some _, None => True
  | None, Some _ => False
  | None, None => True
  end.

(** The property list of an object the run time can have built: no key
    twice, keys in property order. *)
Inductive well_formed : list (string * value) → Prop :=
  | well_formed_nil : well_formed []
  | well_formed_cons k v ps :
      own ps k = None →
      Forall (λ e, precedes k e.1) ps →
      well_formed ps →
      well_formed ((k, v) :: ps).

Definition is_record (h : heap) (v : value) : bool :=
  match v with
  | VObject l =>
      match h !! l with Some (OrdinaryObject _) => true | _ => false end
  | _ => false
  end.

(** The entries [clean] keeps. *)
Definition kept (ps : list (string * value)) : list (string * value) :=
  List.filter (λ e, negb (is_undefined e.2)) ps.

Section Renaming.
Context `{Host}.

(** The key [rename] gives to [k]: [m[k]] when that is truthy. *)
Definition new_key (h : heap) (m : list (string * value)) (k : string)
    : string :=
  match own m k with
  | Some v => if truthy v then ToPropertyKey h v else k
  | None => k
  end.


Definition renamed (key_of : string → string) (ps : list (string * value))
    : list (string * value) :=
  map (λ e, (key_of e.1, e.2)) ps.

End Renaming.

(** The value of field [k] of [v], [undefined] when it has none. *)
Definition field_of (h : heap) (v : value) (k : string) : value :=
  match get_own h v k with Ret x => x | Throw _ => VUndefined end.

(** A field is present when reading it does not give the absent marker. *)
Definition present (v : value) : bool := negb (is_undefined v).







Section Pagination.
Context `{Host}.


End Pagination.

End Spec.

(** ** Sample inputs *)

Module Sample.
Import JS Resource Spec.
Local Open Scope js_scope.

(** A host whose functions all return the string ["called"], and whose
    conversions give [NaN] and ["[object Object]"]. *)
Definition sample_host : Host :=
  {| call := λ _ _, ret (VString "called");
     coerce_number := λ _ _, NaN;
     coerce_string := λ _ _, "[object Object]" |}.

(** [(item) => ({ item })] *)
Definition tagged : value → value → M value :=
  λ item _, new_object [("item", item)].

(** [(item) => ({ id: item.id })], the transform of the test suite. *)
Definition id_only : value → value → M value :=
  λ item _, id <- get item "id" ;; new_object [("id", id)].

End Sample.

(** ** Vocabulary for the shaping and envelope helpers *)

Module Shapes.
Import JS Resource Spec.

(** A value that refers to nothing outside the store [h]. *)
Definition exists_in (h : heap) (v : value) : Prop :=
  match v with
  | VObject l => l < length h
  | _ => True
  end.




(** The entries [omit] keeps. *)
Definition without (fields : list value) (ps : list (string * value))
    : list (string * value) :=
  List.filter (λ e, negb (has_key fields e.1)) ps.


End Shapes.

(** ** Reasoning about the store *)

Module Store.
Import JS Spec.
Local Open Scope js_scope.

Lemma triple_ret h0 {A} (a : A) (Q : A → Prop) : Q a → triple h0 (ret a) Q.
Proof. intros HQ h r h' Hh [= <- <-]. split; [done|]. by intros ? [= <-]. Qed.

Lemma triple_throw h0 {A} e (Q : A → Prop) : triple h0 (throw e) Q.
Proof. intros h r h' Hh [= <- <-]. split; [done|]. by intros ? [=]. Qed.

Lemma triple_weaken h0 {A} (m : M A) (Q Q' : A → Prop) :
triple h0 m Q → (∀ a, Q a → Q' a) → triple h0 m Q'.
Proof.
intros Hm HQ h r h' Hh Hrun. destruct (Hm _ _ _ Hh Hrun) as [? Hr].
split; [done|]. intros a ->. by apply HQ, Hr.
Qed.

Lemma triple_bind h0 {A B} (m : M A) (k : A → M B) Q R :
triple h0 m Q → (∀ a, Q a → triple h0 (k a) R) → triple h0 (bind m k) R.
Proof.
intros Hm Hk h r h' Hh. unfold bind.
destruct (m h) as [[a|e] h1] eqn:Hrun; intros Hk'.
- destruct (Hm _ _ _ Hh Hrun) as [Hh1 Ha].
  by apply (Hk a (Ha a eq_refl) h1).
- injection Hk' as <- <-. destruct (Hm _ _ _ Hh Hrun) as [Hh1 _].
  split; [done|]. by intros ? [=].
Qed.

Lemma triple_seq h0 {A B} (m : M A) (k : A → M B) R :
triple h0 m (λ _, True) → (∀ a, triple h0 (k a) R) →
triple h0 (bind m k) R.
Proof. intros Hm Hk. eapply triple_bind; [exact Hm|]. intros a _. apply Hk. Qed.

(** A step that consults the store without changing it. *)
Lemma triple_inspect h0 {A B} (g : heap → B) (m : B → M A) Q :
(∀ b, triple h0 (m b) Q) → triple h0 (λ h, m (g h) h) Q.
Proof. intros Hm h r h' Hh Hrun. by apply (Hm (g h) h). Qed.

Lemma triple_pure h0 {A} (g : heap → outcome A) :
triple h0 (λ h, (g h, h)) (λ _, True).
Proof. intros h r h' Hh [= <- <-]. done. Qed.

Lemma triple_alloc h0 c : triple h0 (alloc c) (λ l, length h0 ≤ l).
Proof.
intros h r h' Hh [= <- <-]. split; [by apply prefix_app_r|].
intros ? [= <-]. by apply prefix_length.
Qed.

Lemma triple_new_object h0 ps : triple h0 (new_object ps) (fresh h0).
Proof.
eapply triple_bind; [apply triple_alloc|]. intros l Hl.
apply triple_ret. by exists l.
Qed.

Lemma triple_new_array h0 xs : triple h0 (new_array xs) (fresh h0).
Proof.
eapply triple_bind; [apply triple_alloc|]. intros l Hl.
apply triple_ret. by exists l.
Qed.

Lemma triple_read h0 l : triple h0 (read l) (λ _, True).
Proof. apply triple_pure. Qed.

Lemma triple_get h0 v k : triple h0 (get v k) (λ _, True).
Proof. apply triple_pure. Qed.

Lemma triple_Array_isArray h0 v : triple h0 (Array_isArray v) (λ _, True).
Proof. apply triple_pure. Qed.

Lemma triple_Object_entries h0 v : triple h0 (Object_entries v) (λ _, True).
Proof.
intros h r h' Hh. unfold Object_entries.
destruct (nullish v); intros [= <- <-]; done.
Qed.

Lemma triple_Object_keys h0 v : triple h0 (Object_keys v) (λ _, True).
Proof.
apply triple_seq; [apply triple_Object_entries|].
intros es. by apply triple_ret.
Qed.

Lemma triple_Object_fromEntries h0 es :
triple h0 (Object_fromEntries es) (fresh h0).
Proof. apply triple_new_object. Qed.

Lemma triple_spread h0 v : triple h0 (spread v) (fresh h0).
Proof.
apply (triple_inspect h0 (λ h, from_entries (own_entries h v)) new_object).
intros ps. apply triple_new_object.
Qed.

(** Assignment to an object created after [h0] leaves [h0] alone. *)
Lemma triple_assign h0 l k v :
length h0 ≤ l → triple h0 (assign l k v) (λ _, True).
Proof.
intros Hl h r h' [t ->]. unfold assign.
destruct ((h0 ++ t) !! l) as [[ps|]|] eqn:Hc; intros [= <- <-];
  (split; [|done]); try by apply prefix_app_r.
rewrite insert_app_r_alt by done. by apply prefix_app_r.
Qed.

Lemma triple_assign_all h0 l es :
length h0 ≤ l → triple h0 (assign_all l es) (λ _, True).
Proof.
intros Hl. induction es as [|[k v] es IH]; simpl.
- by apply triple_ret.
- apply triple_seq; [by apply triple_assign|]. intros _. apply IH.
Qed.

Lemma triple_Object_assign h0 l sources :
length h0 ≤ l → triple h0 (Object_assign l sources) (fresh h0).
Proof.
intros Hl. induction sources as [|s r IH]; simpl.
- apply triple_ret. by exists l.
- apply triple_seq; [|intros _; apply IH].
  apply (triple_inspect h0 (λ h, own_entries h s) (assign_all l)).
  intros es. by apply triple_assign_all.
Qed.

Lemma triple_extends_only h0 {A} (m : M A) :
extends_only m → triple h0 m (λ _, True).
Proof.
intros Hm h r h' Hh Hrun. split; [|done].
etrans; [exact Hh|]. by eapply Hm.
Qed.

Lemma extends_only_triple {A} (m : M A) Q :
(∀ h0, triple h0 m Q) → extends_only m.
Proof. intros Hm h r h' Hrun. by apply (Hm h h r h'). Qed.

Lemma triple_map_from h0 f l k n acc :
(∀ x, triple h0 (f x) (λ _, True)) →
triple h0 (map_from f l k n acc) (λ _, True).
Proof.
intros Hf. revert k acc. induction n as [|n IH]; intros k acc; simpl.
- by apply triple_ret.
- apply triple_seq; [apply triple_read|]. intros [[ps|elems]|]; try apply IH.
  destruct (elems !! k); [|apply IH].
  apply triple_seq; [apply Hf|]. intros y. apply IH.
Qed.

Lemma triple_Array_map h0 f arr :
(∀ x, triple h0 (f x) (λ _, True)) →
triple h0 (Array_map f arr) (λ _, True).
Proof.
intros Hf. destruct arr; try apply triple_throw. simpl.
apply triple_seq; [apply triple_read|].
intros [[ps|elems]|]; try apply triple_throw.
apply triple_seq; [by apply triple_map_from|]. intros ys.
eapply triple_weaken; [apply triple_new_array|done].
Qed.

End Store.

(** ** The helpers only add objects to the store *)

Module Frame.
Import JS Resource Spec Store.
Local Open Scope js_scope.

Section Frame.
Context `{Host}.
Variable h0 : heap.

Lemma triple_default_object v : triple h0 (default_object v) (λ _, True).
Proof.
  unfold default_object. destruct (is_undefined v); [|by apply triple_ret].
  eapply triple_weaken; [apply triple_new_object|done].
Qed.

Lemma triple_get_value o k : triple h0 (get_value o k) (λ _, True).
Proof.
  apply (triple_inspect h0 (λ h, ToPropertyKey h k) (get o)).
  intros key. apply triple_get.
Qed.

Lemma triple_put o k v : fresh h0 o → triple h0 (put o k v) (λ _, True).
Proof.
  intros (l & -> & Hl). simpl.
  apply (triple_inspect h0 (λ h, ToPropertyKey h k) (λ key, assign l key v)).
  intros key. by apply triple_assign.
Qed.

Lemma triple_js_or a b :
  triple h0 a (λ _, True) → triple h0 b (λ _, True) →
  triple h0 (js_or a b) (λ _, True).
Proof.
  intros Ha Hb. apply triple_seq; [done|]. intros x.
  destruct (truthy x); [by apply triple_ret|done].
Qed.

Lemma triple_js_coalesce a b :
  triple h0 a (λ _, True) → triple h0 b (λ _, True) →
  triple h0 (js_coalesce a b) (λ _, True).
Proof.
  intros Ha Hb. apply triple_seq; [done|]. intros x.
  destruct (nullish x); [done|by apply triple_ret].
Qed.

Lemma triple_apply f args :
  (∀ id, extends_only (call id args)) →
  triple h0 (apply f args) (λ _, True).
Proof.
  intros Hcall. destruct f; simpl; try apply triple_throw.
  by apply triple_extends_only.
Qed.

Lemma triple_transform name resource options :
  triple h0 (transform name resource options) (λ _, True).
Proof.
  apply triple_seq; [apply triple_default_object|]. intros _.
  apply triple_throw.
Qed.

Lemma triple_collection this_transform resources options :
  (∀ x o, extends_only (this_transform x o)) →
  triple h0 (collection this_transform resources options) (λ _, True).
Proof.
  intros Ht. apply triple_seq; [apply triple_default_object|]. intros o.
  apply triple_seq; [apply triple_Array_isArray|]. intros b.
  destruct (_ || _).
  - eapply triple_weaken; [apply triple_new_array|done].
  - apply triple_Array_map. intros x. by apply triple_extends_only.
Qed.

Lemma triple_make this_transform resource options :
  (∀ x o, extends_only (this_transform x o)) →
  triple h0 (make this_transform resource options) (λ _, True).
Proof.
  intros Ht. apply triple_seq; [apply triple_default_object|]. intros o.
  destruct (negb _); [by apply triple_ret|]. by apply triple_extends_only.
Qed.

Lemma triple_when condition value :
  (∀ id args, extends_only (call id args)) →
  triple h0 (when condition value) (λ _, True).
Proof.
  intros Hcall. unfold when. destruct (negb _); [by apply triple_ret|].
  destruct (String.eqb _ _); [|by apply triple_ret].
  apply triple_apply. intros id. apply Hcall.
Qed.

Lemma triple_whenOrElse condition value defaultValue :
  (∀ id args, extends_only (call id args)) →
  triple h0 (whenOrElse condition value defaultValue) (λ _, True).
Proof.
  intros Hcall. unfold whenOrElse.
  destruct (String.eqb _ _); [|by apply triple_ret].
  apply triple_apply. intros id. apply Hcall.
Qed.

Lemma triple_whenLoaded resource relation transformer :
  (∀ id args, extends_only (call id args)) →
  triple h0 (whenLoaded resource relation transformer) (λ _, True).
Proof.
  intros Hcall. unfold whenLoaded.
  apply triple_seq; [apply triple_get_value|]. intros v.
  destruct (is_undefined v); [by apply triple_ret|].
  destruct (truthy _); [|apply triple_get_value].
  apply triple_seq; [apply triple_get_value|]. intros v'.
  apply triple_apply. intros id. apply Hcall.
Qed.

Lemma triple_whenNotNull value transformer :
  (∀ id args, extends_only (call id args)) →
  triple h0 (whenNotNull value transformer) (λ _, True).
Proof.
  intros Hcall. unfold whenNotNull.
  destruct (_ || _); [by apply triple_ret|].
  destruct (truthy _); [|by apply triple_ret].
  apply triple_apply. intros id. apply Hcall.
Qed.

Lemma triple_clean obj : triple h0 (clean obj) (λ _, True).
Proof.
  unfold clean. destruct (_ || _); [by apply triple_ret|].
  apply triple_seq; [apply triple_Object_entries|]. intros es.
  eapply triple_weaken; [apply triple_Object_fromEntries|done].
Qed.

Lemma triple_merge this_clean objects :
  (∀ o, extends_only (this_clean o)) →
  triple h0 (merge this_clean objects) (λ _, True).
Proof.
  intros Hclean. unfold merge.
  eapply triple_bind; [apply triple_alloc|]. intros target Ht. simpl in Ht.
  apply triple_seq.
  { eapply triple_weaken; [by apply triple_Object_assign|done]. }
  intros merged. by apply triple_extends_only.
Qed.

Lemma triple_wrap data meta : triple h0 (wrap data meta) (λ _, True).
Proof.
  unfold wrap. apply triple_seq; [apply triple_default_object|]. intros m.
  eapply triple_bind; [apply triple_alloc|]. intros response Hr.
  simpl in Hr. apply triple_seq; [|intros _; by apply triple_ret].
  destruct (truthy m); [|by apply triple_ret].
  apply triple_seq; [apply triple_Object_keys|]. intros keys.
  destruct (0 <? length keys); [by apply triple_assign|by apply triple_ret].
Qed.

Lemma triple_rest_properties excluded options :
  triple h0 (rest_properties excluded options) (λ _, True).
Proof.
  unfold rest_properties.
  apply (triple_inspect h0
           (λ h, from_entries
                   (List.filter
                      (λ e, negb (existsb (String.eqb e.1) excluded))
                      (own_entries h options))) new_object).
  intros ps. eapply triple_weaken; [apply triple_new_object|done].
Qed.

Lemma triple_last_page total perPage :
  triple h0 (last_page total perPage) (λ _, True).
Proof.
  unfold last_page.
  apply (triple_inspect h0
           (λ h, or_else
                   (VNumber (Math_ceil (number_div (ToNumber h total)
                                                   (ToNumber h perPage))))
                   (num 1)) ret).
  intros v. by apply triple_ret.
Qed.

Lemma triple_paginate this_collection result options :
  (∀ s o, extends_only (this_collection s o)) →
  triple h0 (paginate this_collection result options) (λ _, True).
Proof.
  intros Hc. unfold paginate.
  apply triple_seq; [apply triple_default_object|]. intros o.
  apply triple_seq.
  { destruct (nullish o); [apply triple_throw|by apply triple_ret]. }
  intros _. apply triple_seq; [apply triple_get|]. intros page.
  apply triple_seq; [apply triple_get|]. intros perPage.
  apply triple_seq; [apply triple_rest_properties|]. intros topts.
  apply triple_seq.
  { repeat apply triple_js_or; try apply triple_get. by apply triple_ret. }
  intros results. apply triple_seq.
  { repeat apply triple_js_coalesce; apply triple_get. }
  intros total. apply triple_seq; [apply triple_Array_isArray|].
  intros b. apply triple_seq.
  { destruct b; [by apply triple_ret|].
    eapply triple_weaken; [apply triple_new_array|done]. }
  intros s. apply triple_seq; [by apply triple_extends_only|].
  intros data. apply triple_seq; [apply triple_last_page|]. intros last.
  apply triple_seq.
  { eapply triple_weaken; [apply triple_new_object|done]. }
  intros meta. eapply triple_weaken; [apply triple_new_object|done].
Qed.

Lemma triple_reduce_from f l k n acc (Q : value → Prop) :
  Q acc → (∀ a x, Q a → triple h0 (f a x) Q) →
  triple h0 (reduce_from f l k n acc) Q.
Proof.
  intros Hacc Hf. revert k acc Hacc.
  induction n as [|n IH]; intros k acc Hacc; simpl.
  - by apply triple_ret.
  - apply triple_seq; [apply triple_read|].
    intros [[ps|elems]|]; try by apply IH.
    destruct (elems !! k); [|by apply IH].
    eapply triple_bind; [by apply Hf|]. intros acc' Hacc'. by apply IH.
Qed.

Lemma triple_Array_reduce f arr init (Q : value → Prop) :
  Q init → (∀ a x, Q a → triple h0 (f a x) Q) →
  triple h0 (Array_reduce f arr init) Q.
Proof.
  intros Hinit Hf. destruct arr; try apply triple_throw. simpl.
  apply triple_seq; [apply triple_read|].
  intros [[ps|elems]|]; try apply triple_throw.
  by apply triple_reduce_from.
Qed.

Lemma triple_pick obj fields : triple h0 (pick obj fields) (λ _, True).
Proof.
  unfold pick. destruct (_ || _).
  { eapply triple_weaken; [apply triple_new_object|done]. }
  eapply triple_bind; [apply triple_new_object|]. intros init Hinit.
  eapply triple_weaken; [|done].
  apply (triple_Array_reduce _ _ _ (fresh h0)); [done|].
  intros acc field Hacc.
  apply triple_seq; [apply triple_get_value|]. intros v.
  apply triple_seq; [|intros _; by apply triple_ret].
  destruct (negb _); [|by apply triple_ret].
  apply triple_seq; [apply triple_get_value|]. intros v'.
  by apply triple_put.
Qed.

Lemma triple_iterate v : triple h0 (iterate v) (λ _, True).
Proof.
  intros h r h' Hh. unfold iterate.
  destruct v; try (intros [= <- <-]; done).
  destruct (h !! l) as [[?|?]|]; intros [= <- <-]; done.
Qed.

Lemma triple_omit obj fields : triple h0 (omit obj fields) (λ _, True).
Proof.
  unfold omit. destruct (_ || _).
  { eapply triple_weaken; [apply triple_spread|done]. }
  apply triple_seq; [apply triple_iterate|]. intros fieldSet.
  apply triple_seq; [apply triple_Object_entries|]. intros es.
  eapply triple_weaken; [apply triple_Object_fromEntries|done].
Qed.

Lemma triple_rename_entries keyMap es :
  triple h0 (rename_entries keyMap es) (λ _, True).
Proof.
  induction es as [|[key value] es IH]; simpl; [by apply triple_ret|].
  apply triple_seq; [apply triple_get|]. intros mapped.
  apply triple_seq.
  { apply (triple_inspect h0
             (λ h, ToPropertyKey h (or_else mapped (VString key))) ret).
    intros s. by apply triple_ret. }
  intros new_key. apply triple_seq; [apply IH|]. intros r'.
  by apply triple_ret.
Qed.

Lemma triple_rename obj keyMap : triple h0 (rename obj keyMap) (λ _, True).
Proof.
  unfold rename. destruct (_ || _).
  { eapply triple_weaken; [apply triple_spread|done]. }
  apply triple_seq; [apply triple_Object_entries|]. intros es.
  apply triple_seq; [apply triple_rename_entries|]. intros renamed.
  eapply triple_weaken; [apply triple_Object_fromEntries|done].
Qed.

End Frame.
End Frame.

(** ** Traversals *)

Module Traversal.
Import JS Resource Spec Store.
Local Open Scope js_scope.

Lemma extends_only_lookup {A} (m : M A) h r h' l c :
  extends_only m → m h = (r, h') → h !! l = Some c → h' !! l = Some c.
Proof. intros Hm Hrun Hl. eapply prefix_lookup_Some; [done|by eapply Hm]. Qed.

(** When the callback only adds objects, reading each element at its turn
    is reading the elements the array had at the start. *)
Lemma map_from_map_each f l elems n k acc h :
  (∀ x, extends_only (f x)) →
  h !! l = Some (ArrayObject elems) →
  k + n = length elems →
  map_from f l k n acc h =
  (ys <- map_each f (drop k elems) ;; ret (acc ++ ys)) h.
Proof.
  intros Hf. revert k acc h. induction n as [|n IH]; intros k acc h Hl Hk.
  - rewrite drop_ge by lia. simpl. unfold bind, ret. by rewrite app_nil_r.
  - destruct (lookup_lt_is_Some_2 elems k) as [x Hx]; [lia|].
    rewrite (drop_S _ _ _ Hx). simpl. unfold bind, read.
    rewrite Hl, Hx. destruct (f x h) as [[y|e] h1] eqn:Hrun; [|done].
    rewrite IH; [|by eapply extends_only_lookup|lia].
    unfold bind, ret.
    destruct (map_each f (drop (S k) elems) h1) as [[ys|e] h2]; [|done].
    by rewrite <- app_assoc.
Qed.

Lemma Array_map_map_each f l elems h :
  (∀ x, extends_only (f x)) →
  h !! l = Some (ArrayObject elems) →
  Array_map f (VObject l) h = (ys <- map_each f elems ;; new_array ys) h.
Proof.
  intros Hf Hl. simpl. unfold bind at 1, read. rewrite Hl.
  unfold bind at 1. rewrite (map_from_map_each f l elems) by done.
  rewrite drop_0. unfold bind, ret.
  by destruct (map_each f elems h) as [[ys|e] h1].
Qed.

Lemma map_each_extends_only f xs :
  (∀ x, extends_only (f x)) → extends_only (map_each f xs).
Proof.
  intros Hf. apply (extends_only_triple _ (λ _, True)). intros h0.
  induction xs as [|x xs IH]; simpl; [by apply triple_ret|].
  apply triple_seq; [by apply triple_extends_only|]. intros y.
  apply triple_seq; [apply IH|]. intros ys. by apply triple_ret.
Qed.

(** What a completed traversal returned, element by element. *)
Lemma map_each_returns f xs h ys h' :
  (∀ x, extends_only (f x)) →
  map_each f xs h = (Ret ys, h') →
  length ys = length xs ∧
  ∀ i x, xs !! i = Some x →
    ∃ y, ys !! i = Some y ∧ returns_between h h' (f x) y.
Proof.
  intros Hf. revert h ys. induction xs as [|x xs IH]; intros h ys; simpl.
  - intros [= <- <-]. split; [done|]. intros i x. by rewrite lookup_nil.
  - unfold bind at 1. destruct (f x h) as [[y|e] h1] eqn:Hx; [|done].
    unfold bind at 1.
    destruct (map_each f xs h1) as [[zs|e] h2] eqn:Hxs; [|done].
    intros [= <- <-]. destruct (IH _ _ Hxs) as [Hlen Hidx].
    split; [simpl; by rewrite Hlen|].
    assert (h `prefix_of` h1) by (by eapply Hf).
    assert (h1 `prefix_of` h2) by (by eapply map_each_extends_only).
    intros [|i] x'; simpl.
    + intros [= <-]. exists y. split; [done|]. by exists h, h1.
    + intros Hi. destruct (Hidx _ _ Hi) as (y' & Hy' & hi & hi' & ? & ? & ?).
      exists y'. split; [done|]. exists hi, hi'. split; [by etrans|done].
Qed.

(** A traversal with a callback that never throws completes. *)
Lemma map_each_total f xs h :
  (∀ x h, ∃ y h', f x h = (Ret y, h')) →
  ∃ ys h', map_each f xs h = (Ret ys, h').
Proof.
  intros Hf. revert h. induction xs as [|x xs IH]; intros h; simpl.
  - by exists [], h.
  - destruct (Hf x h) as (y & h1 & Hx). destruct (IH h1) as (ys & h2 & Hxs).
    exists (y :: ys), h2. unfold bind, ret. by rewrite Hx, Hxs.
Qed.

End Traversal.

(** ** Running the helpers *)

Module Run.
Import JS Resource Spec Store Traversal.
Local Open Scope js_scope.

Lemma bind_run {A B} (m : M A) (k : A → M B) h a h' :
  m h = (Ret a, h') → bind m k h = k a h'.
Proof. intros Hm. unfold bind. by rewrite Hm. Qed.

Lemma bind_throw {A B} (m : M A) (k : A → M B) h e h' :
  m h = (Throw e, h') → bind m k h = (Throw e, h').
Proof. intros Hm. unfold bind. by rewrite Hm. Qed.

(** A defaulted parameter is an object or the argument itself, and the
    store only grows. *)
Lemma default_object_run v h :
  ∃ o h1, default_object v h = (Ret o, h1) ∧ h `prefix_of` h1 ∧
          is_undefined o = false ∧ (is_undefined v = false → o = v ∧ h1 = h).
Proof.
  unfold default_object. destruct (is_undefined v) eqn:Hv.
  - eexists _, _. split; [reflexivity|]. split; [by apply prefix_app_r|done].
  - exists v, h. done.
Qed.

Lemma default_object_defined v h :
  is_undefined v = false → default_object v h = (Ret v, h).
Proof. intros Hv. unfold default_object. by rewrite Hv. Qed.

Lemma Array_isArray_run v h : Array_isArray v h = (Ret (is_array h v), h).
Proof. done. Qed.

Lemma is_array_prefix h h' v :
  h `prefix_of` h' → is_array h v = true → is_array h' v = true.
Proof.
  intros Hh. destruct v; try done. simpl.
  destruct (h !! l) as [[|elems]|] eqn:Hl; try done.
  by rewrite (prefix_lookup_Some _ _ _ _ Hl Hh).
Qed.

Lemma collection_not_array this_transform resources options h :
  is_array h resources = false →
  collection this_transform resources options h =
  (o <- default_object options ;; new_array []) h.
Proof.
  intros Harr. unfold collection.
  destruct (default_object_run options h) as (o & h1 & Ho & Hh & _).
  rewrite !(bind_run _ _ _ _ _ Ho).
  rewrite (bind_run _ _ _ _ _ (Array_isArray_run _ _)).
  destruct (is_array h1 resources) eqn:Harr1; [|by rewrite orb_true_r].
  destruct resources; try done. simpl in *.
  unfold default_object in Ho. destruct (is_undefined options).
  - injection Ho as <- <-. rewrite lookup_app in Harr1.
    destruct (h !! l) as [[|]|]; try done.
    by destruct (l - length h) as [|[|]].
  - injection Ho as <- <-. by rewrite Harr in Harr1.
Qed.

Lemma collection_array this_transform l elems options h :
  (∀ x o, extends_only (this_transform x o)) →
  h !! l = Some (ArrayObject elems) →
  collection this_transform (VObject l) options h =
  (o <- default_object options ;;
   ys <- map_each (λ x, this_transform x o) elems ;; new_array ys) h.
Proof.
  intros Ht Hl. unfold collection.
  destruct (default_object_run options h) as (o & h1 & Ho & Hh & _).
  rewrite !(bind_run _ _ _ _ _ Ho).
  rewrite (bind_run _ _ _ _ _ (Array_isArray_run _ _)).
  pose proof (prefix_lookup_Some _ _ _ _ Hl Hh) as Hl1.
  simpl. rewrite Hl1. simpl.
  by apply (Array_map_map_each (λ x, this_transform x o)).
Qed.

End Run.

(** ** Properties of the toolkit *)

Import JS Resource Spec Sample Store Traversal Run.
Local Open Scope js_scope.

Lemma tagged_extends_only x o : extends_only (tagged x o).
Proof.
  apply (extends_only_triple _ (λ _, True)). intros h0.
  eapply triple_weaken; [apply triple_new_object|done].
Qed.

Lemma tagged_never_throws : never_throws tagged.
Proof. intros x o h. by eexists _, _. Qed.

(** C6. [collection] of a transformer whose [transform] is implemented (and
    leaves existing objects alone): on anything that is not an array,
    [null] and [undefined] included, it returns a new empty array; on an
    array it applies [transform(item, options)] to the elements from first
    to last and returns a new array of the results, so that, when every
    call returns, the result has the length of the input and its element
    at each index is what [transform] returned for the input's element at
    that index, [null] results included. *)
Theorem collection_maps_transform
    (this_transform : value → value → M value) resources options h :
  (∀ x o, extends_only (this_transform x o)) →
  (is_array h resources = false →
     ∃ a h', collection this_transform resources options h
             = (Ret (VObject a), h')
             ∧ h' !! a = Some (ArrayObject []) ∧ h `prefix_of` h')
  ∧ (∀ l elems,
       resources = VObject l → h !! l = Some (ArrayObject elems) →
       collection this_transform resources options h
       = (o <- default_object options ;;
          ys <- map_each (λ x, this_transform x o) elems ;;
          new_array ys) h
       ∧ (never_throws this_transform →
          ∃ o a ys h',
            collection this_transform resources options h
            = (Ret (VObject a), h')
            ∧ (is_undefined options = false → o = options)
            ∧ h' !! a = Some (ArrayObject ys)
            ∧ length ys = length elems
            ∧ ∀ i x, elems !! i = Some x →
                ∃ y, ys !! i = Some y
                     ∧ returns_between h h' (this_transform x o) y)).
Proof.
  intros Ht. split.
  - intros Harr. rewrite collection_not_array by done.
    destruct (default_object_run options h) as (o & h1 & Ho & Hh & _).
    rewrite (bind_run _ _ _ _ _ Ho). eexists _, _.
    split; [reflexivity|]. split; [by rewrite list_lookup_middle|].
    by apply prefix_app_r.
  - intros l elems -> Hl. rewrite (collection_array _ _ elems) by done.
    split; [done|]. intros Htotal.
    destruct (default_object_run options h) as (o & h1 & Ho & Hh & _ & Hid).
    rewrite (bind_run _ _ _ _ _ Ho).
    destruct (map_each_total (λ x, this_transform x o) elems h1)
      as (ys & h2 & Hys); [intros x h'; apply Htotal|].
    rewrite (bind_run _ _ _ _ _ Hys).
    destruct (map_each_returns (λ x, this_transform x o) elems h1 ys h2
                (λ x, Ht x o) Hys) as [Hlen Hidx].
    exists o, (length h2), ys, (h2 ++ [ArrayObject ys]).
    split; [done|]. split; [intros Hd; by apply Hid|].
    split; [by rewrite list_lookup_middle|]. split; [done|].
    intros i x Hi. destruct (Hidx i x Hi) as (y & Hy & hi & hi' & ? & ? & ?).
    exists y. split; [done|]. exists hi, hi'.
    split; [by etrans|]. split; [done|]. by apply prefix_app_r.
Qed.

Lemma collection_maps_transform_witness :
  let h := [ArrayObject [num 7; VNull]] in
  (∀ x o, extends_only (tagged x o))
  ∧ never_throws tagged
  ∧ h !! 0 = Some (ArrayObject [num 7; VNull])
  ∧ ∃ o a ys h',
      collection tagged (VObject 0) VUndefined h = (Ret (VObject a), h')
      ∧ (is_undefined VUndefined = false → o = VUndefined)
      ∧ h' !! a = Some (ArrayObject ys)
      ∧ length ys = 2
      ∧ ∀ i x, [num 7; VNull] !! i = Some x →
          ∃ y, ys !! i = Some y ∧ returns_between h h' (tagged x o) y.
Proof.
  intros h. split; [exact tagged_extends_only|].
  split; [exact tagged_never_throws|]. split; [reflexivity|].
  destruct (collection_maps_transform tagged (VObject 0) VUndefined h
              tagged_extends_only) as [_ Hseq].
  destruct (Hseq 0 [num 7; VNull] eq_refl eq_refl) as [_ Hall].
  exact (Hall tagged_never_throws).
Defined.

(** C10. A transformer made by [define(fn)]: [transform] and [make]
    return [null] on every falsy input ([null], [undefined], [0], [""],
    [false], [NaN]) whatever [fn] is, the store being touched only by the
    defaulted [options]; [collection] applies [fn] to every element of an
    array, first to last, with no test on the element. *)
Theorem define_null_safe `{Host} (fn : value → value → M value) :
  (∀ data options h,
     truthy data = false →
     t_transform (define fn) data options h
     = (Ret VNull, (default_object options h).2)
     ∧ t_make (define fn) data options h
       = (Ret VNull, (default_object options h).2))
  ∧ (∀ l elems options h,
       (∀ x o, extends_only (fn x o)) →
       h !! l = Some (ArrayObject elems) →
       t_collection (define fn) (VObject l) options h
       = (o <- default_object options ;;
          ys <- map_each (λ item, fn item o) elems ;;
          new_array ys) h).
Proof.
  split.
  - intros data options h Hfalsy. simpl.
    destruct (default_object_run options h) as (o & h1 & Ho & _).
    rewrite !(bind_run _ _ _ _ _ Ho), Ho, Hfalsy. done.
  - intros l elems options h Hfn Hl.
    by apply (collection_array fn l elems options h).
Qed.

Lemma define_null_safe_witness :
  let h := [ArrayObject [num 0; VNull; VString ""]] in
  truthy (num 0) = false
  ∧ t_transform (@define sample_host tagged) (num 0) VUndefined h
    = (Ret VNull, h ++ [OrdinaryObject []])
  ∧ (∀ x o, extends_only (tagged x o))
  ∧ h !! 0 = Some (ArrayObject [num 0; VNull; VString ""])
  ∧ t_collection (@define sample_host tagged) (VObject 0) (VObject 0) h
    = (Ret (VObject 4),
       h ++ [OrdinaryObject [("item", num 0)];
             OrdinaryObject [("item", VNull)];
             OrdinaryObject [("item", VString "")];
             ArrayObject [VObject 1; VObject 2; VObject 3]]).
Proof.
  intros h. destruct (@define_null_safe sample_host tagged) as [Hfalsy Hcoll].
  split; [reflexivity|].
  split; [exact (proj1 (Hfalsy (num 0) VUndefined h eq_refl))|].
  split; [exact tagged_extends_only|]. split; [reflexivity|].
  rewrite (Hcoll 0 [num 0; VNull; VString ""] (VObject 0) h
             tagged_extends_only eq_refl).
  reflexivity.
Defined.

(** C1. [paginate] of the transformer [define(fn)] and [paginate] of a
    class that extends [Resource] with [transform] equal to [fn] give the
    same outcome -- the same data array, the same meta record, the same
    store -- for every result container and every options argument. *)
Theorem define_paginate_agrees `{Host} (fn : value → value → M value)
    (name : string) result options h :
  t_paginate (define fn) result options h
  = t_paginate (subclass name (Some fn)) result options h.
Proof.
  simpl. destruct (default_object_run options h) as (o & h1 & Ho & _ & Hd & _).
  unfold paginate at 2. rewrite !(bind_run _ _ _ _ _ Ho).
  unfold paginate. by rewrite (bind_run _ _ _ _ _ (default_object_defined _ _ Hd)).
Qed.

(** C8. [transform] of a class that does not override it throws, for every
    entity and options, an [Error] whose message starts with the name of
    the class and asks for a static [transform] method. *)
Theorem transform_not_implemented `{Host} (name : string) resource options h :
  ∃ h', t_transform (subclass name None) resource options h
        = (Throw (Error (name +:+ ".transform() must be implemented. Define a static transform method in your resource class.")), h')
        ∧ h `prefix_of` h'.
Proof.
  simpl. unfold transform.
  destruct (default_object_run options h) as (o & h1 & Ho & Hh & _).
  exists h1. by rewrite (bind_run _ _ _ _ _ Ho).
Qed.

(** C9. No helper changes an object that exists when it is called: the
    store after [clean], [merge], [pick], [omit], [rename], [when],
    [whenOrElse], [whenLoaded], [whenNotNull], [wrap] or [paginate] is the
    store before the call followed by the objects the call created, so
    every entity, record, array and options object passed in reads the same
    afterwards.  The functions the caller passes in ([call], and the
    [collection] that [paginate] delegates to) are taken to do the same. *)
Theorem helpers_leave_inputs_unchanged `{Host} :
  (∀ id args, extends_only (call id args)) →
  (∀ obj, extends_only (clean obj))
  ∧ (∀ objects, extends_only (merge clean objects))
  ∧ (∀ obj fields, extends_only (pick obj fields))
  ∧ (∀ obj fields, extends_only (omit obj fields))
  ∧ (∀ obj keyMap, extends_only (rename obj keyMap))
  ∧ (∀ condition value, extends_only (when condition value))
  ∧ (∀ condition value defaultValue,
       extends_only (whenOrElse condition value defaultValue))
  ∧ (∀ resource relation transformer,
       extends_only (whenLoaded resource relation transformer))
  ∧ (∀ value transformer, extends_only (whenNotNull value transformer))
  ∧ (∀ data meta, extends_only (wrap data meta))
  ∧ (∀ this_collection,
       (∀ s o, extends_only (this_collection s o)) →
       ∀ result options,
         extends_only (paginate this_collection result options)).
Proof.
  intros Hcall.
  assert (Hclean : ∀ obj, extends_only (clean obj)).
  { intros obj. apply (extends_only_triple _ (λ _, True)). intros h0.
    apply Frame.triple_clean. }
  repeat split; intros.
  - apply Hclean.
  - apply (extends_only_triple _ (λ _, True)). intros h0.
    by apply Frame.triple_merge.
  - apply (extends_only_triple _ (λ _, True)). intros h0.
    apply Frame.triple_pick.
  - apply (extends_only_triple _ (λ _, True)). intros h0.
    apply Frame.triple_omit.
  - apply (extends_only_triple _ (λ _, True)). intros h0.
    apply Frame.triple_rename.
  - apply (extends_only_triple _ (λ _, True)). intros h0.
    by apply Frame.triple_when.
  - apply (extends_only_triple _ (λ _, True)). intros h0.
    by apply Frame.triple_whenOrElse.
  - apply (extends_only_triple _ (λ _, True)). intros h0.
    by apply Frame.triple_whenLoaded.
  - apply (extends_only_triple _ (λ _, True)). intros h0.
    by apply Frame.triple_whenNotNull.
  - apply (extends_only_triple _ (λ _, True)). intros h0.
    apply Frame.triple_wrap.
  - apply (extends_only_triple _ (λ _, True)). intros h0.
    by apply Frame.triple_paginate.
Qed.

Lemma sample_call_extends_only id args :
  extends_only (@call sample_host id args).
Proof. intros h r h' [= <- <-]. done. Qed.

Lemma helpers_leave_inputs_unchanged_witness :
  (∀ id args, extends_only (@call sample_host id args))
  ∧ (∀ resource relation transformer,
       extends_only (@whenLoaded sample_host resource relation transformer))
  ∧ (∀ s o, extends_only (collection tagged s o))
  ∧ (∀ result options,
       extends_only (@paginate sample_host (collection tagged) result options)).
Proof.
  pose proof (@helpers_leave_inputs_unchanged sample_host
                sample_call_extends_only) as Hall.
  assert (Hc : ∀ s o, extends_only (collection tagged s o)).
  { intros s o. apply (extends_only_triple _ (λ _, True)). intros h0.
    apply Frame.triple_collection. exact tagged_extends_only. }
  split; [exact sample_call_extends_only|].
  split; [exact (proj1 (proj2 (proj2 (proj2 (proj2 (proj2 (proj2
                   (proj2 Hall))))))))|].
  split; [exact Hc|].
  exact (proj2 (proj2 (proj2 (proj2 (proj2 (proj2 (proj2
           (proj2 (proj2 (proj2 Hall))))))))) (collection tagged) Hc).
Defined.

Lemma get_value_record `{Host} h l ps (k : string) :
  h !! l = Some (OrdinaryObject ps) →
  get_value (VObject l) (VString k) h = (Ret (default VUndefined (own ps k)), h).
Proof. intros Hl. unfold get_value, get. simpl. by rewrite Hl. Qed.



(** ** Property order *)

Module Order.
Import JS Resource Spec.

Lemma own_app ps qs k :
  own (ps ++ qs) k = match own ps k with Some v => Some v | None => own qs k end.
Proof.
  induction ps as [|[k' v] ps IH]; simpl; [done|].
  by destruct (String.eqb k' k).
Qed.

Lemma own_None ps k : own ps k = None ↔ k ∉ ps.*1.
Proof.
  induction ps as [|[k' v] ps IH]; simpl.
  - split; [intros _; apply not_elem_of_nil|done].
  - rewrite not_elem_of_cons. destruct (String.eqb k' k) eqn:Hk.
    + apply String.eqb_eq in Hk as ->. split; [done|]. by intros [? _].
    + apply String.eqb_neq in Hk. rewrite IH. split; [|by intros [_ ?]].
      intros ?. split; [congruence|done].
Qed.

Lemma own_filter_None p ps k :
  own ps k = None → own (List.filter p ps) k = None.
Proof.
  induction ps as [|[k' v] ps IH]; simpl; [done|].
  destruct (String.eqb k' k) eqn:Hk; [done|]. intros Hown.
  destruct (p (k', v)); simpl; [rewrite Hk|]; by apply IH.
Qed.

Lemma Forall_list_filter {A} (P : A → Prop) p (l : list A) :
  Forall P l → Forall P (List.filter p l).
Proof.
  induction 1 as [|x l Hx Hl IH]; simpl; [done|].
  destruct (p x); [by constructor|done].
Qed.

Lemma well_formed_filter p ps :
  well_formed ps → well_formed (List.filter p ps).
Proof.
  induction 1 as [|k v ps Hown Hall Hwf IH]; simpl; [constructor|].
  destruct (p (k, v)); [|done].
  constructor; [by apply own_filter_None|by apply Forall_list_filter|done].
Qed.

Lemma well_formed_app_inv acc k v r :
  well_formed (acc ++ (k, v) :: r) →
  own acc k = None ∧ Forall (λ e, precedes e.1 k) acc.
Proof.
  induction acc as [|[k' v'] acc IH]; simpl; [done|].
  inversion 1 as [|? ? ? Hown Hall Hwf]; subst.
  destruct (IH Hwf) as [Hacc Hprec].
  rewrite own_app in Hown. destruct (own acc k') eqn:Hk'; [done|].
  simpl in Hown. destruct (String.eqb k k') eqn:Hk; [done|].
  rewrite String.eqb_sym, Hk. split; [done|].
  constructor; [|done]. apply Forall_app in Hall as [_ Hall].
  by inversion Hall.
Qed.

Lemma insert_index_last i k v ps :
  key_index k = Some i →
  Forall (λ e, precedes e.1 k) ps →
  insert_index i k v ps = ps ++ [(k, v)].
Proof.
  intros Hk. induction 1 as [|[k' v'] ps Hprec Hall IH]; simpl; [done|].
  unfold precedes in Hprec. simpl in Hprec. rewrite Hk in Hprec.
  destruct (key_index k') as [j|]; [|done].
  apply N.ltb_lt in Hprec. by rewrite Hprec, IH.
Qed.

(** Defining a new key that belongs after all the others appends it. *)
Lemma define_property_last ps k v :
  own ps k = None →
  Forall (λ e, precedes e.1 k) ps →
  define_property ps k v = ps ++ [(k, v)].
Proof.
  intros Hown Hall. unfold define_property. rewrite Hown.
  destruct (key_index k) eqn:Hk; [|done]. by apply insert_index_last.
Qed.

Lemma foldl_define_property acc es :
  well_formed (acc ++ es) →
  foldl (λ ps e, define_property ps e.1 e.2) acc es = acc ++ es.
Proof.
  revert acc. induction es as [|[k v] es IH]; intros acc Hwf; simpl.
  - by rewrite app_nil_r.
  - destruct (well_formed_app_inv _ _ _ _ Hwf) as [Hown Hall].
    rewrite define_property_last by done.
    rewrite IH; rewrite <- app_assoc; done.
Qed.

(** Entries that are already in property order come back as they are. *)
Lemma from_entries_well_formed es : well_formed es → from_entries es = es.
Proof. intros Hwf. by apply (foldl_define_property []). Qed.


End Order.

(** ** Shaping helpers *)

Import Order.

Lemma Object_entries_record h l ps :
  h !! l = Some (OrdinaryObject ps) →
  Object_entries (VObject l) h = (Ret ps, h).
Proof. intros Hl. unfold Object_entries. simpl. by rewrite Hl. Qed.

(** C4, as stated, fails on arrays: [clean([1, 2])] is not the array but
    a new record with the keys ["0"] and ["1"]. *)
Lemma clean_array_counterexample :
  let h := [ArrayObject [num 1; num 2]] in
  is_record h (VObject 0) = false
  ∧ clean (VObject 0) h
    = (Ret (VObject 1), h ++ [OrdinaryObject [("0", num 1); ("1", num 2)]])
  ∧ clean (VObject 0) h ≠ (Ret (VObject 0), h).
Proof. intros h. split; [reflexivity|]. split; [reflexivity|]. by intros [=]. Qed.

Lemma own_kept ps k v :
  well_formed ps →
  own (kept ps) k = Some v ↔ own ps k = Some v ∧ v ≠ VUndefined.
Proof.
  unfold kept. induction 1 as [|k' v' ps Hown Hall Hwf IH]; simpl.
  - split; [done|by intros [? _]].
  - destruct (is_undefined v') eqn:Hv'; simpl.
    + destruct (String.eqb k' k) eqn:Hk; [|done].
      apply String.eqb_eq in Hk as ->.
      rewrite (own_filter_None _ _ _ Hown). destruct v'; try done.
      split; [done|]. by intros [[= <-] ?].
    + destruct (String.eqb k' k); [|done].
      split; [intros [= <-]|by intros [[= <-] _]].
      split; [done|]. by destruct v'.
Qed.

(** C4, amended.  On a record, [clean] returns a new record holding the
    entries of the input whose value is not [undefined], in the input's
    order and with their values, [null] included; the input stays as it
    was.  On [null], [undefined], a boolean, a number, a string or a
    function, [clean] returns its argument and creates nothing. *)
Theorem clean_record_or_primitive obj h :
  (∀ l ps,
     obj = VObject l → h !! l = Some (OrdinaryObject ps) → well_formed ps →
     clean obj h = (Ret (VObject (length h)), h ++ [OrdinaryObject (kept ps)])
     ∧ (∀ k v, own (kept ps) k = Some v ↔ own ps k = Some v ∧ v ≠ VUndefined))
  ∧ (obj = VNull ∨ typeof obj ≠ "object" → clean obj h = (Ret obj, h)).
Proof.
  split.
  - intros l ps -> Hl Hwf. split; [|intros k v; by apply own_kept].
    unfold clean. simpl.
    rewrite (bind_run _ _ _ _ _ (Object_entries_record _ _ _ Hl)).
    unfold Object_fromEntries, new_object, alloc, bind, ret. fold (kept ps).
    rewrite (from_entries_well_formed (kept ps)); [done|].
    by apply well_formed_filter.
  - intros [-> | Htype]; [done|]. unfold clean.
    destruct obj; try done. all: by destruct (negb _).
Qed.

Lemma clean_record_or_primitive_witness :
  let ps := [("a", num 1); ("b", VUndefined); ("c", VNull)] in
  let h := [OrdinaryObject ps] in
  h !! 0 = Some (OrdinaryObject ps)
  ∧ well_formed ps
  ∧ clean (VObject 0) h
    = (Ret (VObject 1), h ++ [OrdinaryObject [("a", num 1); ("c", VNull)]])
  ∧ typeof (VString "x") ≠ "object"
  ∧ clean (VString "x") h = (Ret (VString "x"), h).
Proof.
  intros ps h.
  assert (Hwf : well_formed ps).
  { repeat (constructor; [reflexivity| |]); repeat constructor. }
  split; [reflexivity|]. split; [exact Hwf|].
  split.
  { exact (proj1 (proj1 (clean_record_or_primitive (VObject 0) h) 0 ps
                    eq_refl eq_refl Hwf)). }
  assert (Hty : typeof (VString "x") ≠ "object") by discriminate.
  split; [exact Hty|].
  exact (proj2 (clean_record_or_primitive (VString "x") h) (or_intror Hty)).
Defined.


Lemma spread_record h l ps :
  h !! l = Some (OrdinaryObject ps) → well_formed ps →
  spread (VObject l) h = (Ret (VObject (length h)), h ++ [OrdinaryObject ps]).
Proof.
  intros Hl Hwf. unfold spread. simpl. rewrite Hl.
  by rewrite from_entries_well_formed.
Qed.




(** ** Pagination *)

Lemma get_run v k h :
  nullish v = false → get v k h = (Ret (field_of h v k), h).
Proof.
  intros Hv. unfold get, field_of. destruct v; try done; simpl.
  - by destruct (String.eqb k "length").
  - destruct (h !! l) as [[ps|elems]|]; try done.
    by destruct (String.eqb k "length").
Qed.

Lemma truthy_not_nullish v : truthy v = true → nullish v = false.
Proof. by destruct v. Qed.



Section Pagination.
Context `{Host}.







End Pagination.














(** ** Further properties of the helpers *)

Import Shapes.
















Lemma insert_last {A} (h : list A) x y : <[length h := y]> (h ++ [x]) = h ++ [y].
Proof. rewrite insert_app_r_alt by done. by rewrite Nat.sub_diag. Qed.

Lemma assign_run h acc k v :
  assign (length h) k v (h ++ [OrdinaryObject acc])
  = (Ret tt, h ++ [OrdinaryObject (define_property acc k v)]).
Proof. unfold assign. by rewrite list_lookup_middle, insert_last. Qed.


Lemma own_entries_old h c v :
  exists_in h v → own_entries (h ++ [c]) v = own_entries h v.
Proof.
  destruct v; try done. simpl. intros Hl. by rewrite lookup_app_l.
Qed.




Lemma clean_new_record h ps :
  clean (VObject (length h)) (h ++ [OrdinaryObject ps])
  = (Ret (VObject (S (length h))),
     h ++ [OrdinaryObject ps; OrdinaryObject (from_entries (kept ps))]).
Proof.
  unfold clean. simpl.
  assert (Hl : (h ++ [OrdinaryObject ps]) !! length h
               = Some (OrdinaryObject ps)) by (by rewrite list_lookup_middle).
  rewrite (bind_run _ _ _ _ _ (Object_entries_record _ _ _ Hl)).
  unfold Object_fromEntries, new_object, alloc, bind, ret.
  by rewrite length_app, Nat.add_1_r, <- app_assoc.
Qed.



Lemma kept_idemp ps : kept (kept ps) = kept ps.
Proof.
  unfold kept. induction ps as [|[k v] ps IH]; simpl; [done|].
  destruct (is_undefined v) eqn:Hv; simpl; [done|]. by rewrite Hv, IH.
Qed.

Lemma clean_record_run h l ps :
  h !! l = Some (OrdinaryObject ps) → well_formed ps →
  clean (VObject l) h
  = (Ret (VObject (length h)), h ++ [OrdinaryObject (kept ps)]).
Proof.
  intros Hl Hwf. unfold clean. simpl.
  rewrite (bind_run _ _ _ _ _ (Object_entries_record _ _ _ Hl)).
  unfold Object_fromEntries, new_object, alloc, bind, ret. fold (kept ps).
  rewrite (from_entries_well_formed (kept ps)); [done|].
  by apply well_formed_filter.
Qed.

(** X8. Cleaning the result of [clean] changes nothing: the second call
    returns another new record with the same entries as the first. *)
Theorem clean_idempotent h l ps :
  h !! l = Some (OrdinaryObject ps) → well_formed ps →
  (once <- clean (VObject l) ;; clean once) h
  = (Ret (VObject (S (length h))),
     h ++ [OrdinaryObject (kept ps); OrdinaryObject (kept ps)]).
Proof.
  intros Hl Hwf. rewrite (bind_run _ _ _ _ _ (clean_record_run h l ps Hl Hwf)).
  rewrite clean_new_record, kept_idemp.
  rewrite (from_entries_well_formed (kept ps)); [done|].
  by apply well_formed_filter.
Qed.

Lemma clean_idempotent_witness :
  let ps := [("a", num 1); ("b", VUndefined); ("c", VNull)] in
  let h := [OrdinaryObject ps] in
  h !! 0 = Some (OrdinaryObject ps) ∧ well_formed ps
  ∧ (once <- clean (VObject 0) ;; clean once) h
    = (Ret (VObject 2),
       h ++ [OrdinaryObject [("a", num 1); ("c", VNull)];
             OrdinaryObject [("a", num 1); ("c", VNull)]]).
Proof.
  intros ps h.
  assert (Hwf : well_formed ps).
  { repeat (constructor; [reflexivity| |]); repeat constructor. }
  split; [reflexivity|]. split; [exact Hwf|].
  exact (clean_idempotent h 0 ps eq_refl Hwf).
Defined.





Lemma Object_keys_run v h :
  nullish v = false → Object_keys v h = (Ret (own_entries h v).*1, h).
Proof.
  intros Hv. unfold Object_keys, Object_entries, bind, ret. by rewrite Hv.
Qed.

Lemma wrap_run data meta o h h1 :
  default_object meta h = (Ret o, h1) → exists_in h1 o →
  wrap data meta h
  = (Ret (VObject (length h1)),
     h1 ++ [OrdinaryObject
              (("data", data) ::
               if truthy o && negb (bool_decide (own_entries h1 o = []))
               then [("meta", o)] else [])]).
Proof.
  intros Hdef Hex. unfold wrap. rewrite (bind_run _ _ _ _ _ Hdef).
  unfold alloc. unfold bind at 1.
  destruct (truthy o) eqn:Ht; simpl; [|done].
  unfold bind at 1.
  rewrite (bind_run _ _ _ _ _
             (Object_keys_run o _ (truthy_not_nullish _ Ht))).
  rewrite own_entries_old by done.
  destruct (own_entries h1 o) as [|e es] eqn:Hes; simpl; [done|].
  by rewrite assign_run.
Qed.

(** X11. [wrap(data)] returns a new record with the single key [data];
    [wrap(data, meta)] adds the key [meta], holding the very value passed
    in, exactly when [meta] is truthy and has at least one own entry. *)
Theorem wrap_envelope data meta h :
  (meta = VUndefined →
     wrap data meta h
     = (Ret (VObject (S (length h))),
        h ++ [OrdinaryObject []; OrdinaryObject [("data", data)]]))
  ∧ (meta ≠ VUndefined → exists_in h meta →
     wrap data meta h
     = (Ret (VObject (length h)),
        h ++ [OrdinaryObject
                (("data", data) ::
                 if truthy meta && negb (bool_decide (own_entries h meta = []))
                 then [("meta", meta)] else [])])).
Proof.
  split.
  - intros ->.
    rewrite (wrap_run data VUndefined (VObject (length h))
               h (h ++ [OrdinaryObject []])); [|done|].
    + simpl. rewrite list_lookup_middle by done. simpl.
      by rewrite length_app, Nat.add_1_r, <- app_assoc.
    + simpl. rewrite length_app. simpl. lia.
  - intros Hm Hex. apply wrap_run; [|done].
    apply default_object_defined. by destruct meta.
Qed.

Lemma wrap_envelope_witness :
  let h := [OrdinaryObject [("id", num 1)];
            OrdinaryObject [("total", num 10)]; OrdinaryObject []] in
  VObject 1 ≠ VUndefined ∧ exists_in h (VObject 1)
  ∧ wrap (VObject 0) (VObject 1) h
    = (Ret (VObject 3),
       h ++ [OrdinaryObject [("data", VObject 0); ("meta", VObject 1)]])
  ∧ wrap (VObject 0) (VObject 2) h
    = (Ret (VObject 3), h ++ [OrdinaryObject [("data", VObject 0)]])
  ∧ wrap (VObject 0) VUndefined h
    = (Ret (VObject 4),
       h ++ [OrdinaryObject []; OrdinaryObject [("data", VObject 0)]]).
Proof.
  intros h.
  assert (H1 : VObject 1 ≠ VUndefined) by discriminate.
  assert (H2 : VObject 2 ≠ VUndefined) by discriminate.
  assert (E1 : exists_in h (VObject 1)) by (simpl; lia).
  assert (E2 : exists_in h (VObject 2)) by (simpl; lia).
  split; [exact H1|]. split; [exact E1|].
  split; [exact (proj2 (wrap_envelope (VObject 0) (VObject 1) h) H1 E1)|].
  split; [exact (proj2 (wrap_envelope (VObject 0) (VObject 2) h) H2 E2)|].
  exact (proj1 (wrap_envelope (VObject 0) VUndefined h) eq_refl).
Defined.


Section Picking.
Context `{Host}.



End Picking.



Lemma has_key_elem fields k : has_key fields k = true ↔ VString k ∈ fields.
Proof.
  unfold has_key. rewrite existsb_exists. split.
  - intros (x & Hin & Hx). apply list_elem_of_In in Hin.
    destruct x; try done. by apply String.eqb_eq in Hx as ->.
  - intros Hin. exists (VString k). split; [by apply list_elem_of_In|].
    apply String.eqb_refl.
Qed.

Lemma own_entries_falsy h obj : truthy obj = false → own_entries h obj = [].
Proof.
  destruct obj; try done. simpl.
  destruct s; [done|]. by destruct (String.eqb _ _) eqn:?.
Qed.

Lemma spread_falsy h obj :
  truthy obj = false →
  spread obj h = (Ret (VObject (length h)), h ++ [OrdinaryObject []]).
Proof. intros Hf. unfold spread. by rewrite own_entries_falsy. Qed.

Section Shaping.
Context `{Host}.


(** X13. [omit] of a record and an array of fields returns a new record with
    the record's entries, in order, except those whose key is a string
    element of the array (elements that are not strings never match);
    with falsy fields it returns a shallow copy. *)
Theorem omit_listed_fields h lo ps fields :
  h !! lo = Some (OrdinaryObject ps) → well_formed ps →
  (∀ lf elems,
     fields = VObject lf → h !! lf = Some (ArrayObject elems) →
     omit (VObject lo) fields h
     = (Ret (VObject (length h)), h ++ [OrdinaryObject (without elems ps)])
     ∧ ∀ k, (has_key elems k = true ↔ VString k ∈ elems)
            ∧ own (without elems ps) k
              = if has_key elems k then None else own ps k)
  ∧ (truthy fields = false →
     omit (VObject lo) fields h
     = (Ret (VObject (length h)), h ++ [OrdinaryObject ps])).
Proof.
  intros Hlo Hwf. split.
  - intros lf elems -> Hlf. split.
    + unfold omit. simpl. unfold bind at 1, iterate. rewrite Hlf.
      rewrite (bind_run _ _ _ _ _ (Object_entries_record _ _ _ Hlo)).
      unfold Object_fromEntries, new_object, alloc, bind, ret.
      fold (without elems ps).
      rewrite (from_entries_well_formed (without elems ps)); [done|].
      by apply well_formed_filter.
    + intros k. split; [apply has_key_elem|]. unfold without. clear Hlo.
      induction Hwf as [|k0 v0 ps Hown Hall Hwf IH]; simpl.
      { by destruct (has_key elems k). }
      destruct (has_key elems k0) eqn:Hk0; simpl.
      * rewrite IH. destruct (String.eqb k0 k) eqn:Hk; [|done].
        apply String.eqb_eq in Hk as ->. by rewrite Hk0.
      * destruct (String.eqb k0 k) eqn:Hk; [|done].
        apply String.eqb_eq in Hk as ->. by rewrite Hk0.
  - intros Hf. unfold omit. simpl. rewrite Hf. simpl. by apply spread_record.
Qed.

(** X14. On a falsy object ([null], [undefined], 0, the empty string,
    [false]) [pick], [omit] and [rename] return a new empty record and do
    not throw, whatever the second argument. *)
Theorem shaping_nothing obj fields h :
  truthy obj = false →
  pick obj fields h = (Ret (VObject (length h)), h ++ [OrdinaryObject []])
  ∧ omit obj fields h = (Ret (VObject (length h)), h ++ [OrdinaryObject []])
  ∧ rename obj fields h = (Ret (VObject (length h)), h ++ [OrdinaryObject []]).
Proof.
  intros Hf. unfold pick, omit, rename. rewrite Hf. simpl.
  split; [done|]. split; by apply spread_falsy.
Qed.

(** X15. With a truthy object, [pick] throws a [TypeError] when the fields
    are a non-empty string, a number or [true] (they have no [reduce]),
    after having created its empty accumulator; [omit] throws a
    [TypeError] when the fields are a number or [true] (not iterable). *)
Theorem fields_not_a_list obj fields h :
  truthy obj = true → truthy fields = true →
  (typeof fields = "string" ∨ typeof fields = "number"
   ∨ typeof fields = "boolean" →
     pick obj fields h = (Throw TypeError, h ++ [OrdinaryObject []]))
  ∧ (typeof fields = "number" ∨ typeof fields = "boolean" →
     omit obj fields h = (Throw TypeError, h)).
Proof.
  intros Ho Hf. unfold pick, omit. rewrite Ho, Hf. simpl. split.
  - intros Hty. destruct fields; simpl in Hty; try done;
      destruct Hty as [|[|]]; done.
  - intros Hty. destruct fields; simpl in Hty; try done;
      destruct Hty as [|]; done.
Qed.
End Shaping.

Section Extra1.
Context `{Host}.

Lemma transform_extends_only name x o : extends_only (transform name x o).
Proof.
  apply (extends_only_triple _ (λ _, True)). intros h0.
  apply Frame.triple_transform.
Qed.

Lemma transform_throws name x o h :
  transform name x o h
  = (Throw (Error (not_implemented name)), (default_object o h).2).
Proof.
  unfold transform. destruct (default_object_run o h) as (o' & h1 & Ho & _).
  by rewrite (bind_run _ _ _ _ _ Ho), Ho.
Qed.

(** X1. [make] of a class that extends [Resource] returns [null] on every
    falsy resource without calling [transform], whatever the override is;
    on a truthy resource a class that has no [transform] of its own throws
    the "must be implemented" [Error]. *)
Theorem make_null_safe name override resource options h :
  (truthy resource = false →
     t_make (subclass name override) resource options h
     = (Ret VNull, (default_object options h).2))
  ∧ (truthy resource = true → override = None →
     t_make (subclass name override) resource options h
     = (Throw (Error (not_implemented name)), (default_object options h).2)).
Proof.
  destruct (default_object_run options h) as (o & h1 & Ho & _ & Hd & _).
  split.
  - intros Hf. simpl. unfold make. by rewrite (bind_run _ _ _ _ _ Ho), Hf, Ho.
  - intros Ht ->. simpl. unfold make.
    rewrite (bind_run _ _ _ _ _ Ho), Ht, Ho. simpl.
    rewrite transform_throws. by rewrite (default_object_defined _ _ Hd).
Qed.

(** X2. [collection] of a class that has no [transform] of its own returns
    a new empty array for anything that is not an array and for the empty
    array; for an array with at least one element it throws the "must be
    implemented" [Error] raised at the first element. *)
Theorem collection_without_transform name resources options h :
  (is_array h resources = false ∨
   (∃ l, resources = VObject l ∧ h !! l = Some (ArrayObject [])) →
     ∃ a h', t_collection (subclass name None) resources options h
             = (Ret (VObject a), h')
             ∧ h' !! a = Some (ArrayObject []))
  ∧ (∀ l x xs, resources = VObject l → h !! l = Some (ArrayObject (x :: xs)) →
       t_collection (subclass name None) resources options h
       = (Throw (Error (not_implemented name)), (default_object options h).2)).
Proof.
  destruct (default_object_run options h) as (o & h1 & Ho & _ & Hd & _).
  split.
  - intros [Harr | (l & -> & Hl)]; simpl.
    + rewrite collection_not_array by done.
      rewrite (bind_run _ _ _ _ _ Ho). eexists _, _. split; [reflexivity|].
      by rewrite list_lookup_middle.
    + rewrite (collection_array _ _ [] _ _ (transform_extends_only name) Hl).
      rewrite (bind_run _ _ _ _ _ Ho). eexists _, _. split; [reflexivity|].
      by rewrite list_lookup_middle.
  - intros l x xs -> Hl. simpl.
    rewrite (collection_array _ _ (x :: xs) _ _ (transform_extends_only name) Hl).
    rewrite (bind_run _ _ _ _ _ Ho), Ho. simpl.
    unfold bind. rewrite transform_throws.
    by rewrite (default_object_defined _ _ Hd).
Qed.
End Extra1.

Lemma well_formed_keys es es' :
  es.*1 = es'.*1 → well_formed es → well_formed es'.
Proof.
  intros Hk Hwf. revert es' Hk.
  induction Hwf as [|k v ps Hown Hall Hwf IH]; intros [|[k' v'] ps'] Hk;
    try done; [constructor|].
  rewrite !fmap_cons in Hk. injection Hk as -> Hk. constructor; [| |by apply IH].
  - apply (proj2 (own_None _ _)). rewrite <- Hk. by apply (proj1 (own_None _ _)).
  - apply (proj1 (Forall_fmap fst (precedes k') ps')). rewrite <- Hk.
    by apply (proj2 (Forall_fmap fst (precedes k') ps)).
Qed.

Lemma kept_app ps qs : kept (ps ++ qs) = kept ps ++ kept qs.
Proof. unfold kept. apply List.filter_app. Qed.

Section Extra2.
Context `{Host}.

(** X3. The idiom [clean({...fields, k: when(condition, value)})] for a
    value that is not a function: the cleaned record has the other fields
    that are not [undefined], followed by [k: value] exactly when the
    condition is truthy and the value is not [undefined]. *)
Theorem when_then_clean ps k condition value h :
  typeof value ≠ "function" →
  well_formed (ps ++ [(k, value)]) →
  (field <- when condition value ;;
   record <- new_object (ps ++ [(k, field)]) ;;
   clean record) h
  = (Ret (VObject (S (length h))),
     h ++ [OrdinaryObject
             (ps ++ [(k, if truthy condition then value else VUndefined)]);
           OrdinaryObject
             (kept ps ++ if truthy condition && present value
                         then [(k, value)] else [])]).
Proof.
  intros Hfun Hwf.
  assert (Hwhen : when condition value h
                  = (Ret (if truthy condition then value else VUndefined), h)).
  { unfold when. destruct (truthy condition); simpl; [|done].
    destruct value; try done. }
  rewrite (bind_run _ _ _ _ _ Hwhen).
  set (field := if truthy condition then value else VUndefined).
  assert (Hwf' : well_formed (ps ++ [(k, field)])).
  { eapply well_formed_keys; [|exact Hwf]. by rewrite !fmap_app. }
  unfold new_object at 1, alloc, bind at 1 2, ret at 1.
  unfold clean. simpl.
  assert (Hl : (h ++ [OrdinaryObject (ps ++ [(k, field)])]) !! length h
               = Some (OrdinaryObject (ps ++ [(k, field)])))
    by (by rewrite list_lookup_middle).
  rewrite (bind_run _ _ _ _ _ (Object_entries_record _ _ _ Hl)).
  unfold Object_fromEntries, new_object, alloc, bind, ret.
  fold (kept (ps ++ [(k, field)])).
  rewrite (from_entries_well_formed (kept (ps ++ [(k, field)])))
    by by apply well_formed_filter.
  rewrite length_app, Nat.add_1_r, <- app_assoc, kept_app. simpl.
  do 4 f_equal. unfold kept, field, present. simpl.
  destruct (truthy condition); simpl; [|done]. by destruct (is_undefined value).
Qed.

(** X4. [whenOrElse] with a truthy condition is [when] on the value; with a
    falsy condition it resolves the default the way [when(true, default)]
    does, while [when] on the value gives [undefined]: the branch that is
    not selected is never called. *)
Theorem whenOrElse_selects condition value defaultValue h :
  (truthy condition = true →
     whenOrElse condition value defaultValue h = when condition value h)
  ∧ (truthy condition = false →
     whenOrElse condition value defaultValue h
     = when (VBoolean true) defaultValue h
     ∧ when condition value h = (Ret VUndefined, h)).
Proof.
  unfold whenOrElse, when. split; intros ->; simpl; done.
Qed.

(** X5. [whenNotNull] returns [undefined] for [null] and [undefined],
    whatever the transformer, without calling it; any other value -- 0,
    the empty string and [false] included -- is returned as it is when
    no transformer is given, and passed to the transformer function
    otherwise. *)
Theorem whenNotNull_value value transformer h :
  (nullish value = true →
     whenNotNull value transformer h = (Ret VUndefined, h))
  ∧ (nullish value = false →
     (transformer = VNull ∨ transformer = VUndefined →
        whenNotNull value transformer h = (Ret value, h))
     ∧ (∀ f, transformer = VFunction f →
          whenNotNull value transformer h = call f [value] h)).
Proof.
  unfold whenNotNull, nullish. rewrite (orb_comm (is_null value)).
  split; intros ->; [done|]. split.
  - by intros [-> | ->].
  - by intros f ->.
Qed.

(** X6. A transformer that is truthy but not a function makes
    [whenNotNull] throw a [TypeError] for every value that is not [null] or
    [undefined], and [whenLoaded] throw a [TypeError] for every relation
    that holds a value. *)
Theorem transformer_not_callable value transformer h :
  truthy transformer = true → typeof transformer ≠ "function" →
  (nullish value = false →
     whenNotNull value transformer h = (Throw TypeError, h))
  ∧ (∀ l ps relation,
       h !! l = Some (OrdinaryObject ps) →
       own ps relation = Some value → value ≠ VUndefined →
       whenLoaded (VObject l) (VString relation) transformer h
       = (Throw TypeError, h)).
Proof.
  intros Ht Hty. split.
  - intros Hv. unfold whenNotNull, nullish in *.
    rewrite (orb_comm (is_null value)), Hv.
    destruct transformer; simpl in *; try done; by try rewrite Ht.
  - intros l ps relation Hl Hown Hv.
    pose proof (get_value_record h l ps relation Hl) as Hget.
    rewrite Hown in Hget. simpl in Hget. unfold whenLoaded.
    rewrite (bind_run _ _ _ _ _ Hget).
    assert (Hu : is_undefined value = false) by by destruct value.
    rewrite Hu.
    destruct transformer; simpl in *; try done; try rewrite Ht;
      by rewrite (bind_run _ _ _ _ _ Hget).
Qed.

(** X7. [whenLoaded] on an entity that is [null] or [undefined] throws a
    [TypeError], whatever the relation and the transformer. *)
Theorem whenLoaded_no_entity resource relation transformer h :
  nullish resource = true →
  whenLoaded resource relation transformer h = (Throw TypeError, h).
Proof. intros Hr. unfold whenLoaded. by destruct resource. Qed.

End Extra2.


Section Paging.
Context `{Host}.


(** X16. [paginate] throws a [TypeError] when the options are [null], and
    when the result container is [null] or [undefined]; in both cases the
    collection step is never reached: the outcome is the same for every
    [collection]. *)
Theorem paginate_rejects result options h :
  (is_null options = true →
     ∀ c, paginate c result options h = (Throw TypeError, h))
  ∧ (is_null options = false → nullish result = true →
     ∃ h', h `prefix_of` h'
           ∧ ∀ c, paginate c result options h = (Throw TypeError, h')).
Proof.
  split.
  - intros Ho c. destruct options; try done.
  - intros Ho Hr.
    destruct (default_object_run options h) as (o & h1 & Hdef & Hh1 & Hu & Hid).
    assert (Hnn : nullish o = false).
    { unfold nullish. rewrite Hu. simpl. destruct (is_undefined options) eqn:E.
      - unfold default_object in Hdef. rewrite E in Hdef.
        by injection Hdef as <- <-.
      - by destruct (Hid eq_refl) as [-> _]. }
    destruct (rest_properties ["page"; "perPage"] o h1) as [rt h2] eqn:Hrest.
    assert (h1 `prefix_of` h2 ∧ ∃ t, rt = Ret t) as [Hh2 [t ->]].
    { unfold rest_properties, new_object, alloc, bind, ret in Hrest.
      injection Hrest as <- <-. split; [by apply prefix_app_r|by eexists]. }
    exists h2. split; [by etrans|]. intros c. unfold paginate.
    rewrite (bind_run _ _ _ _ _ Hdef). rewrite Hnn.
    unfold bind at 1, ret at 1.
    rewrite (bind_run _ _ _ _ _ (get_run o "page" h1 Hnn)).
    rewrite (bind_run _ _ _ _ _ (get_run o "perPage" h1 Hnn)).
    rewrite (bind_run _ _ _ _ _ Hrest).
    by destruct result.
Qed.




(** X20. A transformer made by [define(fn)] and a class extending
    [Resource] with [transform] equal to [fn] have the same [collection],
    the same [make] and the same [wrap]; [transform] of the defined one is
    its [make], so on a falsy input it returns [null] where the class calls
    [fn]. *)
Theorem define_matches_subclass (fn : value → value → M value) name :
  (∀ s o h, t_collection (define fn) s o h
            = t_collection (subclass name (Some fn)) s o h)
  ∧ (∀ d o h, t_make (define fn) d o h
              = t_make (subclass name (Some fn)) d o h)
  ∧ (∀ d m h, t_wrap (define fn) d m h
              = t_wrap (subclass name (Some fn)) d m h)
  ∧ (∀ d o h, t_transform (define fn) d o h
              = t_make (subclass name (Some fn)) d o h)
  ∧ (∀ d o h, truthy d = false →
       t_transform (define fn) d o h
       = (Ret VNull, (default_object o h).2)
       ∧ t_transform (subclass name (Some fn)) d o h = fn d o h).
Proof.
  split; [done|]. split; [done|]. split; [done|]. split; [done|].
  intros d o h Hfalsy. split; [|done]. simpl.
  destruct (default_object_run o h) as (o' & h1 & Ho & _).
  by rewrite (bind_run _ _ _ _ _ Ho), Ho, Hfalsy.
Qed.


End Paging.

Lemma make_null_safe_witness :
  truthy VNull = false
  ∧ @t_make (@subclass sample_host "UserResource" None) VNull VUndefined []
    = (Ret VNull, [OrdinaryObject []])
  ∧ truthy (num 1) = true
  ∧ @t_make (@subclass sample_host "UserResource" None) (num 1) VNull []
    = (Throw (Error (not_implemented "UserResource")), []).
Proof.
  destruct (@make_null_safe sample_host "UserResource" None VNull VUndefined [])
    as [Hnull _].
  destruct (@make_null_safe sample_host "UserResource" None (num 1) VNull [])
    as [_ Hthrow].
  split; [reflexivity|]. split; [exact (Hnull eq_refl)|].
  split; [reflexivity|]. exact (Hthrow eq_refl eq_refl).
Defined.

Lemma collection_without_transform_witness :
  let h := [ArrayObject []; ArrayObject [VNull]] in
  (∃ l, VObject 0 = VObject l ∧ h !! l = Some (ArrayObject []))
  ∧ (∃ a h', @t_collection (@subclass sample_host "Resource" None)
               (VObject 0) VNull h = (Ret (VObject a), h')
             ∧ h' !! a = Some (ArrayObject []))
  ∧ h !! 1 = Some (ArrayObject [VNull])
  ∧ @t_collection (@subclass sample_host "Resource" None) (VObject 1) VNull h
    = (Throw (Error (not_implemented "Resource")), h).
Proof.
  intros h.
  assert (Hempty : ∃ l, VObject 0 = VObject l ∧ h !! l = Some (ArrayObject []))
    by (by exists 0).
  destruct (@collection_without_transform sample_host "Resource" (VObject 0)
              VNull h) as [Hnone _].
  destruct (@collection_without_transform sample_host "Resource" (VObject 1)
              VNull h) as [_ Hsome].
  split; [exact Hempty|]. split; [exact (Hnone (or_intror Hempty))|].
  split; [reflexivity|]. exact (Hsome 1 VNull [] eq_refl eq_refl).
Defined.

Lemma when_then_clean_witness :
  let ps := [("id", num 1)] in
  typeof (VString "a@b.c") ≠ "function"
  ∧ well_formed (ps ++ [("email", VString "a@b.c")])
  ∧ (field <- @when sample_host (VBoolean false) (VString "a@b.c") ;;
     record <- new_object (ps ++ [("email", field)]) ;;
     clean record) []
    = (Ret (VObject 1),
       [OrdinaryObject [("id", num 1); ("email", VUndefined)];
        OrdinaryObject [("id", num 1)]])
  ∧ (field <- @when sample_host (VBoolean true) (VString "a@b.c") ;;
     record <- new_object (ps ++ [("email", field)]) ;;
     clean record) []
    = (Ret (VObject 1),
       [OrdinaryObject [("id", num 1); ("email", VString "a@b.c")];
        OrdinaryObject [("id", num 1); ("email", VString "a@b.c")]]).
Proof.
  intros ps.
  assert (Hty : typeof (VString "a@b.c") ≠ "function") by discriminate.
  assert (Hwf : well_formed (ps ++ [("email", VString "a@b.c")])).
  { repeat (constructor; [reflexivity| |]); repeat constructor. }
  split; [exact Hty|]. split; [exact Hwf|].
  split.
  - exact (@when_then_clean sample_host ps "email" (VBoolean false)
             (VString "a@b.c") [] Hty Hwf).
  - exact (@when_then_clean sample_host ps "email" (VBoolean true)
             (VString "a@b.c") [] Hty Hwf).
Defined.

Lemma whenOrElse_selects_witness :
  truthy (num 0) = false
  ∧ @whenOrElse sample_host (num 0) (VFunction 1) (VString "basic") []
    = (Ret (VString "basic"), [])
  ∧ truthy (num 1) = true
  ∧ @whenOrElse sample_host (num 1) (VFunction 1) (VString "basic") []
    = (Ret (VString "called"), []).
Proof.
  destruct (@whenOrElse_selects sample_host (num 0) (VFunction 1)
              (VString "basic") []) as [_ Hfalse].
  destruct (@whenOrElse_selects sample_host (num 1) (VFunction 1)
              (VString "basic") []) as [Htrue _].
  split; [reflexivity|].
  split; [exact (eq_trans (proj1 (Hfalse eq_refl)) eq_refl)|].
  split; [reflexivity|]. exact (eq_trans (Htrue eq_refl) eq_refl).
Defined.

Lemma whenNotNull_value_witness :
  nullish VNull = true
  ∧ @whenNotNull sample_host VNull (VFunction 0) [] = (Ret VUndefined, [])
  ∧ nullish (num 0) = false
  ∧ @whenNotNull sample_host (num 0) VUndefined [] = (Ret (num 0), [])
  ∧ @whenNotNull sample_host (num 0) (VFunction 0) []
    = (Ret (VString "called"), []).
Proof.
  destruct (@whenNotNull_value sample_host VNull (VFunction 0) [])
    as [Hnull _].
  destruct (@whenNotNull_value sample_host (num 0) VUndefined [])
    as [_ Hplain].
  destruct (@whenNotNull_value sample_host (num 0) (VFunction 0) [])
    as [_ Hfun].
  split; [reflexivity|]. split; [exact (Hnull eq_refl)|].
  split; [reflexivity|].
  split; [exact (proj1 (Hplain eq_refl) (or_intror eq_refl))|].
  exact (eq_trans (proj2 (Hfun eq_refl) 0 eq_refl) eq_refl).
Defined.

Lemma transformer_not_callable_witness :
  let h := [OrdinaryObject [("profile", VNull)]] in
  truthy (VString "upper") = true ∧ typeof (VString "upper") ≠ "function"
  ∧ nullish (num 0) = false
  ∧ @whenNotNull sample_host (num 0) (VString "upper") h
    = (Throw TypeError, h)
  ∧ @whenLoaded sample_host (VObject 0) (VString "profile")
      (VString "upper") h = (Throw TypeError, h).
Proof.
  intros h.
  assert (Hty : typeof (VString "upper") ≠ "function") by discriminate.
  assert (Hv : VNull ≠ VUndefined) by discriminate.
  destruct (@transformer_not_callable sample_host (num 0) (VString "upper") h
              eq_refl Hty) as [Hnn _].
  destruct (@transformer_not_callable sample_host VNull (VString "upper") h
              eq_refl Hty) as [_ Hl].
  split; [reflexivity|]. split; [exact Hty|]. split; [reflexivity|].
  split; [exact (Hnn eq_refl)|].
  exact (Hl 0 [("profile", VNull)] "profile" eq_refl eq_refl Hv).
Defined.

Lemma whenLoaded_no_entity_witness :
  nullish VNull = true
  ∧ @whenLoaded sample_host VNull (VString "posts") VUndefined []
    = (Throw TypeError, []).
Proof.
  split; [reflexivity|].
  exact (@whenLoaded_no_entity sample_host VNull (VString "posts") VUndefined
           [] eq_refl).
Defined.


Lemma omit_listed_fields_witness :
  let ps := [("id", num 1); ("password", VString "x"); ("name", VNull)] in
  let h := [OrdinaryObject ps; ArrayObject [VString "password"; num 1]] in
  h !! 0 = Some (OrdinaryObject ps) ∧ well_formed ps
  ∧ h !! 1 = Some (ArrayObject [VString "password"; num 1])
  ∧ omit (VObject 0) (VObject 1) h
    = (Ret (VObject 2),
       h ++ [OrdinaryObject [("id", num 1); ("name", VNull)]])
  ∧ truthy VNull = false
  ∧ omit (VObject 0) VNull h = (Ret (VObject 2), h ++ [OrdinaryObject ps]).
Proof.
  intros ps h.
  assert (Hwf : well_formed ps).
  { repeat (constructor; [reflexivity| |]); repeat constructor. }
  destruct (omit_listed_fields h 0 ps (VObject 1) eq_refl Hwf) as [Harr _].
  destruct (omit_listed_fields h 0 ps VNull eq_refl Hwf) as [_ Hnull].
  split; [reflexivity|]. split; [exact Hwf|]. split; [reflexivity|].
  split; [exact (proj1 (Harr 1 _ eq_refl eq_refl))|].
  split; [reflexivity|]. exact (Hnull eq_refl).
Defined.

Lemma shaping_nothing_witness :
  truthy VNull = false
  ∧ @pick sample_host VNull VNull [] = (Ret (VObject 0), [OrdinaryObject []])
  ∧ omit VNull VNull [] = (Ret (VObject 0), [OrdinaryObject []])
  ∧ @rename sample_host VNull VNull []
    = (Ret (VObject 0), [OrdinaryObject []]).
Proof.
  split; [reflexivity|].
  exact (@shaping_nothing sample_host VNull VNull [] eq_refl).
Defined.

Lemma fields_not_a_list_witness :
  let h := [OrdinaryObject [("id", num 1)]] in
  truthy (VObject 0) = true ∧ truthy (VString "id") = true
  ∧ typeof (VString "id") = "string"
  ∧ @pick sample_host (VObject 0) (VString "id") h
    = (Throw TypeError, h ++ [OrdinaryObject []])
  ∧ truthy (num 5) = true ∧ typeof (num 5) = "number"
  ∧ omit (VObject 0) (num 5) h = (Throw TypeError, h).
Proof.
  intros h.
  destruct (@fields_not_a_list sample_host (VObject 0) (VString "id") h
              eq_refl eq_refl) as [Hpick _].
  destruct (@fields_not_a_list sample_host (VObject 0) (num 5) h
              eq_refl eq_refl) as [_ Homit].
  split; [reflexivity|]. split; [reflexivity|]. split; [reflexivity|].
  split; [exact (Hpick (or_introl eq_refl))|].
  split; [reflexivity|]. split; [reflexivity|].
  exact (Homit (or_introl eq_refl)).
Defined.

Lemma paginate_rejects_witness :
  is_null VNull = true
  ∧ (∀ c, @paginate sample_host c (VObject 0) VNull [ArrayObject []]
          = (Throw TypeError, [ArrayObject []]))
  ∧ is_null VUndefined = false ∧ nullish VNull = true
  ∧ ∃ h', [] `prefix_of` h'
          ∧ ∀ c, @paginate sample_host c VNull VUndefined []
                 = (Throw TypeError, h').
Proof.
  destruct (@paginate_rejects sample_host (VObject 0) VNull [ArrayObject []])
    as [Hopt _].
  destruct (@paginate_rejects sample_host VNull VUndefined []) as [_ Hres].
  split; [reflexivity|]. split; [exact (Hopt eq_refl)|].
  split; [reflexivity|]. split; [reflexivity|].
  exact (Hres eq_refl eq_refl).
Defined.





Lemma define_matches_subclass_witness :
  truthy (num 0) = false
  ∧ @t_transform (@define sample_host tagged) (num 0) VNull [] = (Ret VNull, [])
  ∧ @t_transform (@subclass sample_host "T" (Some tagged)) (num 0) VNull []
    = (Ret (VObject 0), [OrdinaryObject [("item", num 0)]]).
Proof.
  destruct (@define_matches_subclass sample_host tagged "T")
    as (_ & _ & _ & _ & Hfalsy).
  destruct (Hfalsy (num 0) VNull [] eq_refl) as [Hd Hs].
  split; [reflexivity|]. split; [exact Hd|]. exact (eq_trans Hs eq_refl).
Defined.

